(** * pic-splice-lizard: the collection state machine and the render pipeline

    A shallow embedding of [src/index.ts], the whole plugin.

    - The closure of [apply] holds two tables, [userImages] and [timeout].
      Both hold references.  A session object is an index into a heap,
      because [stitchAndSendImages] keeps the object it found in
      [userImages] across its [await]s while the table may be reassigned; a
      [Timeout] object is a number, and the callbacks the runtime still has
      scheduled are a table of their own, because [delete timeout[id]] drops
      the reference without cancelling anything.
    - An [async] function is cut at its [await]s into segments that run to
      completion.  What is left of a suspended function is a [Task]; the
      event loop resumes it when the awaited promise settles.  Commands,
      messages and timers are the other inputs of the loop, in any order.
    - The promise of [session.send] is taken to resolve: the channel is a
      primitive of the specification, which lists no failure for it.  The
      rendering engine may fail at each of its calls.
    - The code that follows [await stitchAndSendImages(...)] in the middleware
      runs in the step in which that call ends: no message, timer or engine
      answer can come between the two.
    - What the program sends, logs and renders is recorded in a trace.
    - [h.select] and [String.prototype.trim] belong to the host and are
      parameters.

    JavaScript strings are embedded as their UTF-8 bytes. *)

From Stdlib Require Import DecimalString.
From stdpp Require Import gmap strings list fin_maps.

(** ** Strings *)

(** [String.prototype.includes]: [needle] occurs somewhere in [s]. *)
Fixpoint includes (s needle : string) : bool :=
  String.prefix needle s ||
  match s with
  | EmptyString => false
  | String _ s' => includes s' needle
  end.

(** [Array.prototype.join('')]. *)
Definition join (parts : list string) : string :=
  foldr String.append "" parts.

(** The characters that a Rocq literal cannot hold directly. *)
Definition dq : string := String (Ascii.ascii_of_nat 34) "".
Definition nl : string := String (Ascii.ascii_of_nat 10) "".

(** Decimal rendering of a number inside a template literal. *)
Definition show_nat (n : nat) : string :=
  NilZero.string_of_uint (Nat.to_uint n).

(** ** Constants of the source *)

Definition horizontal : string := "横向".
Definition vertical : string := "纵向".
Definition done_keyword : string := "完成".

Definition maxRetries : nat := 3.
Definition retryDelayMs : N := 1000.
Definition renderTimeoutMs : N := 30000.
Definition debounceMs : N := 10000.
Definition connectionClosedMsg : string := "Connection closed".
Definition renderErrorMsg : string := "[拼图] 渲染图片时发生错误：".
Definition maxRetriesMsg : string := "[拼图] 达到最大重试次数，仍无法渲染图片".

Definition invalid_direction_reply : string :=
  "拼接方向只能是 " +:+ dq +:+ "横向" +:+ dq +:+ " 或 " +:+ dq +:+ "纵向" +:+ dq +:+ "。".
Definition start_reply : string :=
  "请发送图片。当图片发送完成后，请输入 " +:+ dq +:+ "完成" +:+ dq +:+ " 或等待超时自动拼接。".
Definition too_few_reply : string := "请提供至少两张图片进行拼接。".
Definition failure_reply : string := "拼接图片时发生错误，请稍后再试。".
Definition png_mime : string := "image/png".

(** ** ImageRenderer: [generateHtmlForImages] and [stitchImages] *)

(** The template literal [style] of [generateHtmlForImages], line by line,
    with the indentation of the source. *)
Definition style_of (direction : string) : string :=
  nl +:+
  "      <style>" +:+ nl +:+
  "        body {" +:+ nl +:+
  "          margin: 0;" +:+ nl +:+
  "          display: flex;" +:+ nl +:+
  "          flex-direction: " +:+
     (if String.eqb direction horizontal then "row" else "column") +:+ ";" +:+ nl +:+
  "        }" +:+ nl +:+
  "        img {" +:+ nl +:+
  "          display: block;" +:+ nl +:+
  "        }" +:+ nl +:+
  "      </style>" +:+ nl +:+
  "    ".

Definition img_tag (url : string) : string :=
  "<img src=" +:+ dq +:+ url +:+ dq +:+ ">".

Definition generateHtmlForImages (imageUrls : list string) (direction : string)
  : string :=
  let style := style_of direction in
  let imagesHtml := join (map img_tag imageUrls) in
  "<html><head>" +:+ style +:+ "</head><body>" +:+ imagesHtml +:+ "</body></html>".

(** What the rendering engine does in one pass through the loop body of
    [stitchImages]: which of the awaited calls throws, and with what message,
    or the screenshot when all of them return. *)
Inductive AttemptOutcome :=
| PageThrows (msg : string)         (* ctx.puppeteer.page() *)
| SetContentThrows (msg : string)   (* page.setContent(html) *)
| EvaluateThrows (msg : string)     (* page.evaluate(...) *)
| ScreenshotThrows (msg : string)   (* page.screenshot(...) *)
| CloseThrows (msg : string)        (* page.close() *)
| Captured (shot : list Byte.byte).

(** Calls that reach the engine, the logger and the clock.  The page of the
    attempt numbered [p] is page [p]: every attempt asks for a new one. *)
Inductive EngineEv :=
| Acquire (p : nat)
| SetDefaultTimeout (p : nat) (ms : N)
| SetContent (p : nat) (html : string)
| Evaluate (p : nat)
| Screenshot (p : nat)
| Close (p : nat)
| LogError (msg : string)
| LogInfo (msg : string)
| Sleep (ms : N).

(** The [try] block of one attempt: the calls it makes, in order, and how it
    ends ([inl] the message of the error thrown, [inr] the value returned). *)
Definition attempt_body (p : nat) (html : string) (o : AttemptOutcome)
  : list EngineEv * (string + list Byte.byte) :=
  match o with
  | PageThrows m => ([], inl m)
  | SetContentThrows m =>
      ([Acquire p; SetDefaultTimeout p renderTimeoutMs; SetContent p html], inl m)
  | EvaluateThrows m =>
      ([Acquire p; SetDefaultTimeout p renderTimeoutMs; SetContent p html;
        Evaluate p], inl m)
  | ScreenshotThrows m =>
      ([Acquire p; SetDefaultTimeout p renderTimeoutMs; SetContent p html;
        Evaluate p; Screenshot p], inl m)
  | CloseThrows m =>
      ([Acquire p; SetDefaultTimeout p renderTimeoutMs; SetContent p html;
        Evaluate p; Screenshot p; Close p], inl m)
  | Captured shot =>
      ([Acquire p; SetDefaultTimeout p renderTimeoutMs; SetContent p html;
        Evaluate p; Screenshot p; Close p], inr shot)
  end.

(** The [for] loop of [stitchImages], from [attempt] on, with [remaining]
    iterations left ([attempt + remaining = maxRetries]). *)
Fixpoint stitch_loop (engine : nat -> AttemptOutcome) (html : string)
    (attempt remaining : nat) : list EngineEv * (string + list Byte.byte) :=
  match remaining with
  | 0 => ([], inl maxRetriesMsg)
  | S remaining' =>
      let '(evs, r) := attempt_body attempt html (engine attempt) in
      match r with
      | inr shot => (evs, inr shot)
      | inl m =>
          let evs := evs ++ [LogError (renderErrorMsg +:+ m)] in
          if includes m connectionClosedMsg then
            let '(rest, r') := stitch_loop engine html (S attempt) remaining' in
            (evs ++ [LogInfo "[拼图] 连接关闭，正在重试..."; Sleep retryDelayMs] ++ rest,
             r')
          else (evs, inl m)
      end
  end.

Definition stitchImages (engine : nat -> AttemptOutcome)
    (imageUrls : list string) (direction : string)
  : list EngineEv * (string + list Byte.byte) :=
  let html := generateHtmlForImages imageUrls direction in
  stitch_loop engine html 0 maxRetries.

(** ** SessionStore, DebounceTimer and the trace of outward effects *)

(** One entry of [userImages]: [{ direction, images, processing? }].  The
    optional [processing] is [None] while the property is absent. *)
Record SessionData := mkSession {
  direction : string;
  images : list string;
  processing : option bool;
}.

Inductive Payload :=
| Text (s : string)
| Image (buf : list Byte.byte) (mime : string).

Inductive Level := LvInfo | LvError.

Inductive Event :=
| Sent (u : string) (p : Payload)             (* session.send(p), in the chat of u *)
| Logged (lvl : Level) (msg : string)         (* logger.info / logger.error *)
| StitchCalled (l : nat) (imageUrls : list string) (dir : string)
    (* stitchImages(ctx, images, direction), for the session object at l *)
| Next (u : string).                          (* return next() *)

(** The closure state of [apply] together with the timers of the runtime.
    [userImages] and [timeout] hold references: a session object is its index
    in [heap], a [Timeout] object is its number.  [timers] are the callbacks
    scheduled with [setTimeout] that have neither run nor been cleared; each
    remembers the [session.userId] it captured and its delay. *)
Record State := mkState {
  heap : list SessionData;
  userImages : gmap string nat;
  timeout : gmap string nat;
  timers : gmap nat (string * N);
  next_timer : nat;
  trace : list Event;
}.

Definition init : State := mkState [] ∅ ∅ ∅ 0 [].

Definition upd_heap (f : list SessionData → list SessionData) (σ : State) : State :=
  mkState (f (heap σ)) (userImages σ) (timeout σ) (timers σ) (next_timer σ) (trace σ).
Definition upd_userImages (f : gmap string nat → gmap string nat) (σ : State) : State :=
  mkState (heap σ) (f (userImages σ)) (timeout σ) (timers σ) (next_timer σ) (trace σ).
Definition upd_timeout (f : gmap string nat → gmap string nat) (σ : State) : State :=
  mkState (heap σ) (userImages σ) (f (timeout σ)) (timers σ) (next_timer σ) (trace σ).
Definition upd_timers (f : gmap nat (string * N) → gmap nat (string * N)) (σ : State) : State :=
  mkState (heap σ) (userImages σ) (timeout σ) (f (timers σ)) (next_timer σ) (trace σ).
Definition emit (e : Event) (σ : State) : State :=
  mkState (heap σ) (userImages σ) (timeout σ) (timers σ) (next_timer σ) (trace σ ++ [e]).

(** [clearTimeout(h)]: unschedules the callback of [h]; a no-op on
    [undefined] and on a timer that has run or was cleared before. *)
Definition clearTimeout (h : option nat) (σ : State) : State :=
  match h with
  | Some t => upd_timers (delete t) σ
  | None => σ
  end.

(** [setTimeout(callback, ms)] with the callback of line 64, which captures
    the [session] of user [u]. *)
Definition setTimeout (u : string) (ms : N) (σ : State) : State * nat :=
  let t := next_timer σ in
  (mkState (heap σ) (userImages σ) (timeout σ) (<[t := (u, ms)]> (timers σ))
           (S t) (trace σ), t).

(** Assignments to the fields of the session object at [l]. *)
Definition set_processing (b : bool) (d : SessionData) : SessionData :=
  mkSession (direction d) (images d) (Some b).
Definition push_images (new : list string) (d : SessionData) : SessionData :=
  mkSession (direction d) (images d ++ new) (processing d).
Definition modify (l : nat) (f : SessionData → SessionData) (σ : State) : State :=
  upd_heap (alter f l) σ.

(** ** CollectionController *)

(** The rest of a suspended [stitchAndSendImages]. *)
Inductive FinTask :=
| AwaitTooFewSend (u : string) (l : nat)
    (* line 144; [userImageData] is the object at [l] *)
| AwaitStitch (u : string) (imageUrls : list string) (dir : string)
    (* line 151 *)
| AwaitResultSend (u : string).
    (* lines 153 and 156; what is left is the [finally] block *)

(** The rest of a suspended task of the event loop. *)
Inductive Task :=
| MwAwaitStatusSend (u content : string)       (* middleware, line 53 *)
| MwAwaitFinalize (u : string) (k : FinTask)   (* middleware, line 57 *)
| TimerAwaitFinalize (k : FinTask).            (* timer callback, line 65 *)

(** The command action of [拼图 [方向]]; returns the new state and the reply. *)
Definition startSession (u : string) (arg : option string) (σ : State)
  : State * string :=
  let dir := default vertical arg in
  if negb (String.eqb dir horizontal) && negb (String.eqb dir vertical) then
    (σ, invalid_direction_reply)
  else
    let σ := emit (Logged LvInfo
      ("[拼图] 用户 " +:+ u +:+ " 开始拼接图片，方向：" +:+ dir)) σ in
    let l := length (heap σ) in
    let σ := upd_heap (λ h, h ++ [mkSession dir [] None]) σ in
    (upd_userImages <[u := l]> σ, start_reply).

(** [stitchAndSendImages] up to its first [await]. *)
Definition stitchAndSendImages (u : string) (σ : State) : State * option FinTask :=
  match userImages σ !! u with
  | None => (σ, None)
  | Some l =>
      match heap σ !! l with
      | None => (σ, None)   (* no such reference is ever stored *)
      | Some d =>
          if bool_decide (processing d = Some true) then (σ, None)
          else
            let σ := modify l (set_processing true) σ in
            if length (images d) <? 2 then
              (emit (Sent u (Text too_few_reply)) σ, Some (AwaitTooFewSend u l))
            else
              let σ := emit (Logged LvInfo
                ("[拼图] 开始拼接图片，方向：" +:+ direction d +:+
                 "，图片数量：" +:+ show_nat (length (images d)))) σ in
              let σ := emit (StitchCalled l (images d) (direction d)) σ in
              (σ, Some (AwaitStitch u (images d) (direction d)))
      end
  end.

(** [stitchAndSendImages] from one [await] to the next.  [engine] is what the
    rendering engine does when the call of [stitchImages] is the one awaited;
    of that call only the result matters here, its own calls are the subject
    of [stitchImages]. *)
Definition resume_fin (k : FinTask) (engine : nat → AttemptOutcome) (σ : State)
  : State * option FinTask :=
  match k with
  | AwaitTooFewSend u l => (modify l (set_processing false) σ, None)
  | AwaitStitch u imageUrls dir =>
      match snd (stitchImages engine imageUrls dir) with
      | inr stitchedImageBuffer =>
          (emit (Sent u (Image stitchedImageBuffer png_mime)) σ,
           Some (AwaitResultSend u))
      | inl message =>
          let σ := emit (Logged LvError
            ("[拼图] 拼接图片时发生错误：" +:+ message)) σ in
          (emit (Sent u (Text failure_reply)) σ, Some (AwaitResultSend u))
      end
  | AwaitResultSend u =>
      (upd_timeout (delete u) (upd_userImages (delete u) σ), None)
  end.

Section Controller.

(** Supplied by the host: [h.select(content, 'img').map(img => img.attrs.src)]
    and [String.prototype.trim]. *)
Context (select_img_src : string → list string) (trim : string → string).

(** Lines 56 to 66 of the middleware. *)
Definition middleware_rest (u content : string) (σ : State)
  : State * option Task :=
  if String.eqb (trim content) done_keyword then
    match stitchAndSendImages u σ with
    | (σ, Some k) => (σ, Some (MwAwaitFinalize u k))
    | (σ, None) => (clearTimeout (timeout σ !! u) σ, None)
    end
  else
    let σ := clearTimeout (timeout σ !! u) σ in
    let '(σ, t) := setTimeout u debounceMs σ in
    (upd_timeout <[u := t]> σ, None).

(** The middleware up to its first [await]. *)
Definition middleware (u content : string) (σ : State) : State * option Task :=
  match userImages σ !! u with
  | None => (emit (Next u) σ, None)
  | Some l =>
      let imgs := select_img_src content in
      let σ := modify l (push_images imgs) σ in
      if 0 <? length imgs then
        let totalImages := from_option (λ d, length (images d)) 0 (heap σ !! l) in
        (emit (Sent u (Text ("已获取 " +:+ show_nat totalImages +:+ " 张图片。"))) σ,
         Some (MwAwaitStatusSend u content))
      else middleware_rest u content σ
  end.

(** The callback of line 64 when timer [t] expires. *)
Definition fire (t : nat) (σ : State) : State * option Task :=
  match timers σ !! t with
  | None => (σ, None)
  | Some (u, _) =>
      let σ := upd_timers (delete t) σ in
      match stitchAndSendImages u σ with
      | (σ, Some k) => (σ, Some (TimerAwaitFinalize k))
      | (σ, None) => (σ, None)
      end
  end.

(** A suspended task continues when the promise it awaits settles. *)
Definition resume (k : Task) (engine : nat → AttemptOutcome) (σ : State)
  : State * option Task :=
  match k with
  | MwAwaitStatusSend u content => middleware_rest u content σ
  | MwAwaitFinalize u k =>
      match resume_fin k engine σ with
      | (σ, Some k') => (σ, Some (MwAwaitFinalize u k'))
      | (σ, None) => (clearTimeout (timeout σ !! u) σ, None)
      end
  | TimerAwaitFinalize k =>
      match resume_fin k engine σ with
      | (σ, Some k') => (σ, Some (TimerAwaitFinalize k'))
      | (σ, None) => (σ, None)
      end
  end.

(** A message handled to the end of the middleware's own code: the first
    segment and, when that one stopped at the status message, the second. *)
Definition deliver (u content : string) (σ : State) : State * option Task :=
  match middleware u content σ with
  | (σ', Some (MwAwaitStatusSend u' content')) => middleware_rest u' content' σ'
  | r => r
  end.


(** *** The event loop *)

Inductive Input :=
| Command (u : string) (arg : option string)
| Message (u content : string)
| Fire (t : nat)
| Settle (i : nat) (engine : nat → AttemptOutcome).

(** The program state, the suspended tasks, and the replies returned by the
    command. *)
Record Machine := mkMachine {
  st : State;
  pool : gmap nat Task;
  next_task : nat;
  replies : list (string * string);
}.

Definition boot : Machine := mkMachine init ∅ 0 [].

Definition park (m : Machine) (r : State * option Task) : Machine :=
  match r with
  | (σ, Some k) =>
      mkMachine σ (<[next_task m := k]> (pool m)) (S (next_task m)) (replies m)
  | (σ, None) => mkMachine σ (pool m) (next_task m) (replies m)
  end.

Definition step (m : Machine) (i : Input) : Machine :=
  match i with
  | Command u arg =>
      let '(σ, r) := startSession u arg (st m) in
      mkMachine σ (pool m) (next_task m) (replies m ++ [(u, r)])
  | Message u content => park m (middleware u content (st m))
  | Fire t => park m (fire t (st m))
  | Settle i engine =>
      match pool m !! i with
      | None => m
      | Some k =>
          park (mkMachine (st m) (delete i (pool m)) (next_task m) (replies m))
               (resume k engine (st m))
      end
  end.

Definition run (m : Machine) (inputs : list Input) : Machine :=
  foldl step m inputs.

End Controller.

(** ** A host for closed examples

    Instances of the two host functions, used where a statement is evaluated
    on a concrete run.  [scan_img_src] reads the [src] of every element
    written [<img src="..."/>]; [ascii_trim] strips ASCII white space.  On
    contents without entities and without other white space they agree with
    [h.select] and [trim]. *)

Definition img_open : string := "<img src=" +:+ dq.

Fixpoint until_dq (s : string) : string :=
  match s with
  | EmptyString => EmptyString
  | String c s' =>
      if Ascii.eqb c (Ascii.ascii_of_nat 34) then EmptyString
      else String c (until_dq s')
  end.

Fixpoint string_drop (n : nat) (s : string) : string :=
  match n, s with
  | S n', String _ s' => string_drop n' s'
  | _, _ => s
  end.

Fixpoint scan_img_src (s : string) : list string :=
  match s with
  | EmptyString => []
  | String _ s' =>
      (if String.prefix img_open s
       then [until_dq (string_drop (String.length img_open) s)] else [])
      ++ scan_img_src s'
  end.

Fixpoint ltrim (s : string) : string :=
  match s with
  | String c s' => if Ascii.is_space c then ltrim s' else s
  | EmptyString => EmptyString
  end.

Definition ascii_trim (s : string) : string :=
  String.rev (ltrim (String.rev (ltrim s))).

Definition img (url : string) : string :=
  "<img src=" +:+ dq +:+ url +:+ dq +:+ "/>".

(** ** Vocabulary of the statements *)

(** The document around the image tags. *)
Definition skeleton_open (flex : string) : string :=
  "<html><head>
      <style>
        body {
          margin: 0;
          display: flex;
          flex-direction: " +:+ flex +:+ ";
        }
        img {
          display: block;
        }
      </style>
    </head><body>".

Definition skeleton_close : string := "</body></html>".

Definition flex_direction (dir : string) : string :=
  if String.eqb dir horizontal then "row" else "column".





Definition count_if {A} (f : A → bool) (l : list A) : nat :=
  length (List.filter f l).

Definition is_log_error (e : EngineEv) : bool :=
  match e with LogError _ => true | _ => false end.
Definition is_sleep (e : EngineEv) : bool :=
  match e with Sleep _ => true | _ => false end.

(** Passes through the loop body: every failed one logs one error, a
    successful one returns. *)
Definition attempts_made (r : list EngineEv * (string + list Byte.byte)) : nat :=
  count_if is_log_error (fst r) + (if snd r is inr _ then 1 else 0).

(** An engine whose first call of [page.setContent] runs into the timeout. *)
Definition timeout_engine (n : nat) : AttemptOutcome :=
  SetContentThrows "Navigation timeout of 30000 ms exceeded".

(** An engine that loses its connection twice and then works. *)
Definition flaky_engine (n : nat) : AttemptOutcome :=
  match n with
  | 0 | 1 => ScreenshotThrows "Protocol error (Page.captureScreenshot): Connection closed."
  | _ => Captured []
  end.

(** An engine that never keeps its connection. *)
Definition dead_engine (n : nat) : AttemptOutcome :=
  PageThrows "Connection closed".

Definition ok_engine (n : nat) : AttemptOutcome := Captured [].

Definition is_stitch_called (e : Event) : bool :=
  match e with StitchCalled _ _ _ => true | _ => false end.

(** How often [stitchImages] has been called so far. *)
Definition stitch_calls (σ : State) : nat :=
  count_if is_stitch_called (trace σ).

(** ** Runs used in closed examples *)

(** Alice starts a vertical collection and sends two images in one message;
    the status message has gone out and the debounce timer is running. *)
Definition two_images : Machine :=
  run scan_img_src ascii_trim boot
    [Command "alice" None;
     Message "alice" (img "a.png" +:+ img "b.png");
     Settle 0 ok_engine].

(** Alice starts a horizontal collection and sends one image. *)
Definition one_image : Machine :=
  run scan_img_src ascii_trim boot
    [Command "alice" (Some "横向");
     Message "alice" (img "a.png");
     Settle 0 ok_engine].


(** Alice sends the completion keyword after a single image, and her timer
    expires while the finalize of the keyword is still waiting for its
    message to go out; then that finalize ends. *)
Definition keyword_then_timer_one_image : Machine :=
  run scan_img_src ascii_trim one_image
    [Message "alice" "完成"; Fire 0; Settle 1 ok_engine].

(** Alice has sent one image and, with her debounce timer still running,
    issues the command again. *)
Definition restarted : State :=
  fst (startSession "alice" None (st one_image)).

(** ** Invariants of the event loop *)

(** The session object at [l] has [processing] set to [true]. *)
Definition busy (σ : State) (l : nat) : Prop :=
  processing <$> heap σ !! l = Some (Some true).

Definition is_stitch_for (l : nat) (e : Event) : bool :=
  match e with
  | StitchCalled l' _ _ => Nat.eqb l l'
  | _ => false
  end.

(** How often [stitchImages] has been called for the session object at [l]. *)
Definition renders (l : nat) (σ : State) : nat :=
  count_if (is_stitch_for l) (trace σ).

(** The suspended [stitchAndSendImages] inside a task, if there is one. *)
Definition fin_of (k : Task) : option FinTask :=
  match k with
  | MwAwaitStatusSend _ _ => None
  | MwAwaitFinalize _ f => Some f
  | TimerAwaitFinalize f => Some f
  end.

(** A suspended finalize that will end the processing of the session object
    at [l] while it is the session of user [u]: the one that holds [l] and
    will reset its flag, or one that will delete the entry of [u]. *)
Definition owns (f : FinTask) (u : string) (l : nat) : Prop :=
  match f with
  | AwaitTooFewSend _ l' => l' = l
  | AwaitStitch u' _ _ | AwaitResultSend u' => u' = u
  end.

Definition waits_on (k : Task) (l : nat) : Prop :=
  ∃ u, fin_of k = Some (AwaitTooFewSend u l).

Record Inv (m : Machine) : Prop := mkInv {
  inv_fresh : ∀ i, next_task m ≤ i → pool m !! i = None;
  inv_store : ∀ u l, userImages (st m) !! u = Some l → l < length (heap (st m));
  inv_inj : ∀ u u' l, userImages (st m) !! u = Some l →
            userImages (st m) !! u' = Some l → u = u';
  inv_trace : ∀ l, length (heap (st m)) ≤ l → renders l (st m) = 0;
  inv_waiting : ∀ i k l, pool m !! i = Some k → waits_on k l →
                busy (st m) l ∧ renders l (st m) = 0;
  inv_unique : ∀ i j ki kj l, pool m !! i = Some ki → pool m !! j = Some kj →
               waits_on ki l → waits_on kj l → i = j;
  inv_once : ∀ l, renders l (st m) ≤ 1 ∧ (renders l (st m) = 1 → busy (st m) l);
  inv_owned : ∀ u l, userImages (st m) !! u = Some l → busy (st m) l →
              ∃ i k f, pool m !! i = Some k ∧ fin_of k = Some f ∧ owns f u l;
}.

(** Two states that the invariants cannot tell apart. *)
Definition similar (σ σ' : State) : Prop :=
  userImages σ' = userImages σ
  ∧ length (heap σ') = length (heap σ)
  ∧ (∀ l, busy σ' l ↔ busy σ l)
  ∧ ∀ l, renders l σ' = renders l σ.

Inductive reachable (select_img_src : string → list string)
    (trim : string → string) : Machine → Prop :=
| reach_boot : reachable select_img_src trim boot
| reach_step m i :
    reachable select_img_src trim m →
    reachable select_img_src trim (step select_img_src trim m i).

(** The scenarios of the specification. *)

Definition scenario_three_images : Machine :=
  run scan_img_src ascii_trim boot
    [Command "bob" None;
     Message "bob" (img "1.png"); Settle 0 ok_engine;
     Message "bob" (img "2.png" +:+ img "3.png"); Settle 1 ok_engine;
     Message "bob" "完成"; Settle 2 ok_engine; Settle 3 ok_engine].

Definition scenario_timeout_one_image : Machine :=
  run scan_img_src ascii_trim one_image [Fire 0; Settle 1 ok_engine].

Definition scenario_flaky : Machine :=
  run scan_img_src ascii_trim two_images
    [Message "alice" "完成"; Settle 1 flaky_engine; Settle 2 ok_engine].

Definition scenario_fatal : Machine :=
  run scan_img_src ascii_trim two_images
    [Fire 0; Settle 1 timeout_engine; Settle 2 ok_engine].



(** ** More vocabulary: directions, timers and the calls of the engine *)

Definition valid_direction (dir : string) : Prop :=
  dir = horizontal ∨ dir = vertical.

(** A call of [stitchImages] recorded in the trace has images to stitch and
    a direction to lay them out in. *)
Definition stitch_ok (e : Event) : Prop :=
  match e with
  | StitchCalled _ imageUrls dir => 2 ≤ length imageUrls ∧ valid_direction dir
  | _ => True
  end.

(** What holds of the state alone at every point of a run. *)
Record Sound (σ : State) : Prop := mkSound {
  sound_dirs : ∀ l d, heap σ !! l = Some d → valid_direction (direction d);
  sound_trace : ∀ e, e ∈ trace σ → stitch_ok e;
  sound_timers : ∀ t u ms, timers σ !! t = Some (u, ms) →
                 t < next_timer σ ∧ ms = 10000%N;
  sound_table : ∀ u t, timeout σ !! u = Some t → t < next_timer σ;
}.



(** Every session object of [σ] is still there in [σ'], with the same
    direction and with its images followed by zero or more new ones. *)
Definition grows (σ σ' : State) : Prop :=
  ∀ l d, heap σ !! l = Some d →
    ∃ d', heap σ' !! l = Some d' ∧ direction d' = direction d
          ∧ ∃ new, images d' = images d ++ new.


(** ** Properties of the renderer *)

(** *** Substrings *)

Lemma append_cons (c : Ascii.ascii) (a b : string) :
  String c a +:+ b = String c (a +:+ b).
Proof. reflexivity. Qed.

Lemma append_nil (b : string) : "" +:+ b = b.
Proof. reflexivity. Qed.

Lemma prefix_app_l (n s : string) : String.prefix n (n +:+ s) = true.
Proof.
  induction n as [|c n IH]; [by destruct s|].
  rewrite append_cons. simpl. rewrite IH. by destruct (Ascii.ascii_dec c c).
Qed.

Lemma includes_prefix (n s : string) :
  String.prefix n s = true → includes s n = true.
Proof. destruct s; simpl; intros ->; done. Qed.

Lemma includes_here (n s : string) : includes (n +:+ s) n = true.
Proof. apply includes_prefix, prefix_app_l. Qed.

Lemma includes_app_r (a s n : string) :
  includes s n = true → includes (a +:+ s) n = true.
Proof.
  intros H. induction a as [|c a IH]; [done|].
  rewrite append_cons. simpl. rewrite IH. apply orb_true_r.
Qed.

Lemma string_app_assoc (a b c : string) : (a +:+ b) +:+ c = a +:+ b +:+ c.
Proof.
  induction a as [|x a IH]; [done|].
  rewrite !append_cons. f_equal. exact IH.
Qed.

Lemma join_app (xs ys : list string) : join (xs ++ ys) = join xs +:+ join ys.
Proof.
  induction xs as [|x xs IH]; [done|].
  rewrite <- app_comm_cons. unfold join in *. cbn [foldr].
  by rewrite IH, string_app_assoc.
Qed.

Lemma includes_join (xs : list string) (x : string) :
  x ∈ xs → includes (join xs) x = true.
Proof.
  induction 1 as [x xs|x y xs _ IH]; unfold join in *; cbn [foldr].
  - apply includes_here.
  - by apply includes_app_r.
Qed.

(** *** The document *)

Lemma skeleton_open_eq (dir : string) :
  "<html><head>" +:+ style_of dir +:+ "</head><body>"
  = skeleton_open (flex_direction dir).
Proof.
  unfold style_of, skeleton_open, flex_direction, horizontal.
  destruct (String.eqb dir "横向"); reflexivity.
Qed.

(** C10. [generateHtmlForImages] returns the fixed skeleton, with
    flex-direction [row] when the direction is the horizontal token and
    [column] for every other string, holding in its body the tags
    [<img src="URL">] of the URLs in list order, and nothing else.  A URL
    goes into its tag unchanged, so it occurs verbatim in the document, and
    the tags of a concatenated list are the tags of its parts. *)
Theorem generateHtmlForImages_verbatim (imageUrls : list string) (dir : string) :
  generateHtmlForImages imageUrls dir
  = skeleton_open (if bool_decide (dir = "横向") then "row" else "column")
    +:+ join (map (λ url, "<img src=" +:+ dq +:+ url +:+ dq +:+ ">") imageUrls)
    +:+ skeleton_close
  ∧ (∀ url, url ∈ imageUrls →
       includes (generateHtmlForImages imageUrls dir) url = true)
  ∧ (∀ xs ys, imageUrls = xs ++ ys →
       join (map img_tag imageUrls) = join (map img_tag xs) +:+ join (map img_tag ys)).
Proof.
  split; [|split].
  - assert (flex_direction dir
            = if bool_decide (dir = "横向") then "row" else "column") as <-.
    { unfold flex_direction, horizontal.
      destruct (String.eqb_spec dir "横向") as [->|Hne].
      - by rewrite bool_decide_eq_true_2.
      - by rewrite bool_decide_eq_false_2. }
    rewrite <- skeleton_open_eq. unfold generateHtmlForImages, skeleton_close.
    cbv zeta. by rewrite !string_app_assoc.
  - intros url Hin. unfold generateHtmlForImages. cbv zeta.
    do 3 apply includes_app_r.
    apply list_elem_of_split in Hin as (xs & ys & ->).
    rewrite map_app, join_app, string_app_assoc. apply includes_app_r.
    cbn [map]. unfold join. cbn [foldr]. unfold img_tag at 1.
    rewrite !string_app_assoc. do 2 apply includes_app_r. apply includes_here.
  - intros xs ys ->. by rewrite map_app, join_app.
Qed.

(** A URL with a quote and angle brackets closes its tag and opens another
    element. *)
Example generateHtmlForImages_injection :
  generateHtmlForImages ["x" +:+ dq +:+ "><script>alert(1)</script>"] "纵向"
  = skeleton_open "column"
    +:+ "<img src=" +:+ dq +:+ "x" +:+ dq +:+ "><script>alert(1)</script>" +:+ dq +:+ ">"
    +:+ skeleton_close.
Proof. reflexivity. Qed.

(** *** The retry loop *)







Lemma count_if_app {A} (f : A → bool) (xs ys : list A) :
  count_if f (xs ++ ys) = count_if f xs + count_if f ys.
Proof. unfold count_if. by rewrite List.filter_app, length_app. Qed.





(** *** Pages *)

(** Within one attempt, the page is closed exactly when [page.screenshot]
    returned: an attempt that fails after it got its page, in [setContent],
    [evaluate] or [screenshot], ends without closing it. *)
Lemma attempt_body_release (p : nat) (html : string) (o : AttemptOutcome) :
  (Acquire p ∈ fst (attempt_body p html o) ↔ ∀ m, o ≠ PageThrows m)
  ∧ (Close p ∈ fst (attempt_body p html o)
     ↔ (∃ shot, o = Captured shot) ∨ (∃ m, o = CloseThrows m)).
Proof.
  destruct o; cbn [attempt_body fst];
    rewrite ?elem_of_cons, ?elem_of_nil; (split; split);
    firstorder (try congruence; eauto).
Qed.

(** C5. The page is not released on every path: when [page.setContent] of
    the first attempt runs into its timeout, the attempt acquires page 0,
    logs the error and rethrows it; [page.close] is never called.  A
    successful attempt does close its page. *)
Theorem stitchImages_page_not_released :
  let r := stitchImages timeout_engine ["a"; "b"] "纵向" in
  snd r = inl "Navigation timeout of 30000 ms exceeded"
  ∧ Acquire 0 ∈ fst r
  ∧ (∀ p, Close p ∉ fst r)
  ∧ Close 0 ∈ fst (stitchImages ok_engine ["a"; "b"] "纵向").
Proof.
  cbv zeta. split; [reflexivity|].
  assert (fst (stitchImages timeout_engine ["a"; "b"] "纵向")
          = [Acquire 0; SetDefaultTimeout 0 30000;
             SetContent 0 (generateHtmlForImages ["a"; "b"] "纵向");
             LogError (renderErrorMsg +:+ "Navigation timeout of 30000 ms exceeded")])
    as -> by reflexivity.
  split; [|split].
  - apply list_elem_of_here.
  - intros p Hin. rewrite !elem_of_cons, elem_of_nil in Hin.
    destruct Hin as [H|[H|[H|[H|[]]]]]; discriminate.
  - cbn. rewrite !elem_of_cons. auto 10.
Qed.

(** ** Properties of the controller *)

(** *** The first segment of [stitchAndSendImages], case by case *)

Lemma lookup_modify (l : nat) (f : SessionData → SessionData) (σ : State) (l' : nat) :
  heap (modify l f σ) !! l'
  = if decide (l = l') then f <$> heap σ !! l' else heap σ !! l'.
Proof.
  unfold modify. cbn [heap upd_heap]. case_decide as E.
  - subst. apply list_lookup_alter_eq.
  - by apply list_lookup_alter_ne.
Qed.

Lemma finalize_no_session (u : string) (σ : State) :
  userImages σ !! u = None → stitchAndSendImages u σ = (σ, None).
Proof. unfold stitchAndSendImages. by intros ->. Qed.

Lemma finalize_in_flight (u : string) (σ : State) (l : nat) (d : SessionData) :
  userImages σ !! u = Some l → heap σ !! l = Some d →
  processing d = Some true →
  stitchAndSendImages u σ = (σ, None).
Proof.
  unfold stitchAndSendImages. intros -> -> Hp.
  by rewrite bool_decide_eq_true_2.
Qed.

Lemma finalize_too_few (u : string) (σ : State) (l : nat) (d : SessionData) :
  userImages σ !! u = Some l → heap σ !! l = Some d →
  processing d ≠ Some true → length (images d) < 2 →
  stitchAndSendImages u σ
  = (emit (Sent u (Text too_few_reply)) (modify l (set_processing true) σ),
     Some (AwaitTooFewSend u l)).
Proof.
  unfold stitchAndSendImages. intros -> -> Hp Hlen.
  rewrite bool_decide_eq_false_2 by done.
  by apply Nat.ltb_lt in Hlen as ->.
Qed.

Lemma finalize_render (u : string) (σ : State) (l : nat) (d : SessionData) :
  userImages σ !! u = Some l → heap σ !! l = Some d →
  processing d ≠ Some true → 2 ≤ length (images d) →
  stitchAndSendImages u σ
  = (emit (StitchCalled l (images d) (direction d))
       (emit (Logged LvInfo
                ("[拼图] 开始拼接图片，方向：" +:+ direction d +:+
                 "，图片数量：" +:+ show_nat (length (images d))))
          (modify l (set_processing true) σ)),
     Some (AwaitStitch u (images d) (direction d))).
Proof.
  unfold stitchAndSendImages. intros -> -> Hp Hlen.
  rewrite bool_decide_eq_false_2 by done.
  by apply Nat.ltb_ge in Hlen as ->.
Qed.

(** The shapes a suspended [stitchAndSendImages] can have after its first
    segment. *)
Lemma finalize_cases (u : string) (σ : State) :
  stitchAndSendImages u σ = (σ, None)
  ∨ ∃ l d, userImages σ !! u = Some l ∧ heap σ !! l = Some d
      ∧ processing d ≠ Some true
      ∧ (length (images d) < 2 ∨ 2 ≤ length (images d)).
Proof.
  destruct (userImages σ !! u) as [l|] eqn:Hu;
    [|left; by apply finalize_no_session].
  destruct (heap σ !! l) as [d|] eqn:Hl;
    [|left; unfold stitchAndSendImages; by rewrite Hu, Hl].
  destruct (decide (processing d = Some true)) as [Hp|Hp];
    [left; by eapply finalize_in_flight|].
  right. exists l, d. repeat split; try done. lia.
Qed.

(** *** Finalize with enough images *)

(** C3. A finalize that gets past its guard with at least two images calls
    [stitchImages].  Whatever the state is when that call settles, a
    screenshot is sent as a PNG image, and an error is logged and answered
    with the generic failure message, with no image sent; in both cases the
    [finally] block then removes the user's entry from [userImages] and from
    [timeout]. *)
Theorem finalize_render_cleans_up (u : string) (σ : State) (l : nat) (d : SessionData) :
  userImages σ !! u = Some l → heap σ !! l = Some d →
  processing d ≠ Some true → 2 ≤ length (images d) →
  ∃ σ1, stitchAndSendImages u σ
        = (σ1, Some (AwaitStitch u (images d) (direction d)))
    ∧ stitch_calls σ1 = S (stitch_calls σ)
    ∧ ∀ engine σ2, ∃ σ3,
        resume_fin (AwaitStitch u (images d) (direction d)) engine σ2
        = (σ3, Some (AwaitResultSend u))
        ∧ userImages σ3 = userImages σ2 ∧ heap σ3 = heap σ2
        ∧ match snd (stitchImages engine (images d) (direction d)) with
          | inr shot => trace σ3 = trace σ2 ++ [Sent u (Image shot "image/png")]
          | inl m =>
              trace σ3 = trace σ2 ++
                [Logged LvError ("[拼图] 拼接图片时发生错误：" +:+ m);
                 Sent u (Text "拼接图片时发生错误，请稍后再试。")]
          end
        ∧ ∀ engine' σ4, ∃ σ5,
            resume_fin (AwaitResultSend u) engine' σ4 = (σ5, None)
            ∧ userImages σ5 !! u = None ∧ timeout σ5 !! u = None
            ∧ trace σ5 = trace σ4.
Proof.
  intros Hu Hl Hp Hlen. eexists. split; [by apply finalize_render|].
  split.
  { unfold stitch_calls. cbn [trace emit modify upd_heap].
    rewrite !count_if_app. cbn. lia. }
  intros engine σ2. cbn [resume_fin].
  assert (∀ engine' σ4, ∃ σ5,
            resume_fin (AwaitResultSend u) engine' σ4 = (σ5, None)
            ∧ userImages σ5 !! u = None ∧ timeout σ5 !! u = None
            ∧ trace σ5 = trace σ4) as Hfinally.
  { intros engine' σ4. eexists. split; [reflexivity|].
    cbn [userImages timeout trace upd_timeout upd_userImages].
    by rewrite !lookup_delete_eq. }
  destruct (snd (stitchImages engine (images d) (direction d))) as [m|shot];
    eexists; (split; [reflexivity|]); do 2 (split; [reflexivity|]);
    (split; [cbn [trace emit]; by rewrite <- ?app_assoc|exact Hfinally]).
Qed.

Lemma finalize_render_cleans_up_witness :
  ∃ σ1, stitchAndSendImages "alice" (st two_images)
        = (σ1, Some (AwaitStitch "alice" ["a.png"; "b.png"] "纵向"))
    ∧ stitch_calls σ1 = 1.
Proof.
  destruct (finalize_render_cleans_up "alice" (st two_images) 0
              (mkSession "纵向" ["a.png"; "b.png"] None))
    as (σ1 & H1 & H2 & _).
  - vm_compute. reflexivity.
  - vm_compute. reflexivity.
  - discriminate.
  - simpl. lia.
  - exists σ1. split; [exact H1|exact H2].
Defined.

(** *** Every path through finalize *)


(** *** The callback left behind *)




(** *** What finalize leaves alone *)

Lemma finalize_frame (u : string) (σ : State) :
  let σ' := fst (stitchAndSendImages u σ) in
  userImages σ' = userImages σ ∧ timeout σ' = timeout σ
  ∧ timers σ' = timers σ ∧ next_timer σ' = next_timer σ
  ∧ ∀ l', images <$> heap σ' !! l' = images <$> heap σ !! l'
          ∧ direction <$> heap σ' !! l' = direction <$> heap σ !! l'.
Proof.
  cbv zeta.
  destruct (finalize_cases u σ) as [->|(l & d & Hu & Hl & Hp & [Hlen|Hlen])].
  - done.
  - rewrite (finalize_too_few u σ l d) by done. cbn [fst].
    do 4 (split; [reflexivity|]). intros l'. cbn [heap emit].
    rewrite lookup_modify. case_decide; [|done].
    by destruct (heap σ !! l').
  - rewrite (finalize_render u σ l d) by done. cbn [fst].
    do 4 (split; [reflexivity|]). intros l'. cbn [heap emit].
    rewrite lookup_modify. case_decide; [|done].
    by destruct (heap σ !! l').
Qed.

(** *** Two calls of finalize *)

(** C1, as the code has it.  On a session that is not being processed and
    holds at least two images, the first call of finalize calls
    [stitchImages] once.  A second call for the same user returns at the
    guard, changing nothing, at each point where it can arrive: while the
    render is awaited, while the reply with the result is awaited, and after
    the [finally] block has removed the session.  Over the whole sequence
    [stitchImages] is called exactly once. *)
Theorem finalize_twice_renders_once (u : string) (σ : State) (l : nat) (d : SessionData) :
  userImages σ !! u = Some l → heap σ !! l = Some d →
  processing d ≠ Some true → 2 ≤ length (images d) →
  ∃ σ1 k1,
    stitchAndSendImages u σ = (σ1, Some k1)
    ∧ stitch_calls σ1 = S (stitch_calls σ)
    ∧ stitchAndSendImages u σ1 = (σ1, None)
    ∧ ∀ engine, ∃ σ2 k2,
        resume_fin k1 engine σ1 = (σ2, Some k2)
        ∧ stitchAndSendImages u σ2 = (σ2, None)
        ∧ ∃ σ3,
            resume_fin k2 engine σ2 = (σ3, None)
            ∧ stitchAndSendImages u σ3 = (σ3, None)
            ∧ stitch_calls σ3 = S (stitch_calls σ).
Proof.
  intros Hu Hl Hp Hlen.
  set (d1 := mkSession (direction d) (images d) (Some true)).
  eexists _, _. split; [by apply (finalize_render u σ l d)|].
  match goal with |- context [stitch_calls ?s = _] => set (σ1 := s) end.
  assert (stitch_calls σ1 = S (stitch_calls σ)) as Hc.
  { unfold stitch_calls, σ1. cbn [trace emit modify upd_heap].
    rewrite !count_if_app. cbn. lia. }
  assert (userImages σ1 !! u = Some l) as Hu1 by exact Hu.
  assert (heap σ1 !! l = Some d1) as Hl1.
  { unfold σ1. cbn [heap emit]. rewrite lookup_modify, decide_True by done.
    by rewrite Hl. }
  split; [exact Hc|].
  split; [by apply (finalize_in_flight u σ1 l d1)|].
  intros engine. cbn [resume_fin].
  assert (∀ σ2, userImages σ2 = userImages σ1 → heap σ2 = heap σ1 →
            stitch_calls σ2 = stitch_calls σ1 →
            stitchAndSendImages u σ2 = (σ2, None)
            ∧ ∃ σ3, resume_fin (AwaitResultSend u) engine σ2 = (σ3, None)
                ∧ stitchAndSendImages u σ3 = (σ3, None)
                ∧ stitch_calls σ3 = S (stitch_calls σ)) as Hrest.
  { intros σ2 E1 E2 E3. split.
    - apply (finalize_in_flight u σ2 l d1); by rewrite ?E1, ?E2.
    - eexists. split; [reflexivity|]. split.
      + apply finalize_no_session. cbn. apply lookup_delete_eq.
      + by rewrite <- Hc, <- E3. }
  destruct (snd (stitchImages engine (images d) (direction d))) as [m|shot];
    eexists _, _; (split; [reflexivity|]); apply Hrest; try reflexivity;
    unfold stitch_calls; cbn [trace emit]; rewrite !count_if_app; cbn; lia.
Qed.

Lemma finalize_twice_renders_once_witness :
  ∃ σ1 k1,
    stitchAndSendImages "alice" (st two_images) = (σ1, Some k1)
    ∧ stitch_calls σ1 = 1
    ∧ stitchAndSendImages "alice" σ1 = (σ1, None).
Proof.
  destruct (finalize_twice_renders_once "alice" (st two_images) 0
              (mkSession "纵向" ["a.png"; "b.png"] None))
    as (σ1 & k1 & H1 & H2 & H3 & _).
  - vm_compute. reflexivity.
  - vm_compute. reflexivity.
  - discriminate.
  - simpl. lia.
  - exists σ1, k1. split; [exact H1|]. split; [exact H2|exact H3].
Defined.

(** C1 as it is written fails on a session with a single image: the keyword
    followed by the expiry of the timer, two calls of finalize in a row, end
    with no call of [stitchImages] at all; the user is told once that two
    images are needed, and the session stays. *)
Lemma finalize_twice_one_image_renders_nothing :
  stitch_calls (st keyword_then_timer_one_image) = 0
  ∧ pool keyword_then_timer_one_image = ∅
  ∧ trace (st keyword_then_timer_one_image)
    = trace (st one_image) ++ [Sent "alice" (Text too_few_reply)]
  ∧ userImages (st keyword_then_timer_one_image) !! "alice" = Some 0
  ∧ heap (st keyword_then_timer_one_image) !! 0
    = Some (mkSession "横向" ["a.png"] (Some false)).
Proof. vm_compute. repeat split; reflexivity. Qed.

(** *** Finalize with too few images *)

Lemma middleware_rest_frame trim (u content : string) (σ : State) :
  let σ' := fst (middleware_rest trim u content σ) in
  userImages σ' = userImages σ
  ∧ ∀ l', images <$> heap σ' !! l' = images <$> heap σ !! l'
          ∧ direction <$> heap σ' !! l' = direction <$> heap σ !! l'.
Proof.
  cbv zeta. unfold middleware_rest.
  destruct (String.eqb (trim content) done_keyword).
  - pose proof (finalize_frame u σ) as (H1 & _ & _ & _ & H2).
    destruct (stitchAndSendImages u σ) as [σ1 [k|]]; cbn [fst] in *.
    + done.
    + split; [by destruct (timeout σ1 !! u)|].
      intros l'. by destruct (timeout σ1 !! u).
  - split; [by destruct (timeout σ !! u)|].
    intros l'. by destruct (timeout σ !! u).
Qed.

(** The middleware appends the images of a message to the images of the
    user's session object, in the order of their extraction. *)
Lemma middleware_appends select_img_src trim (u content : string) (σ : State)
    (l : nat) (d : SessionData) :
  userImages σ !! u = Some l → heap σ !! l = Some d →
  let σ' := fst (middleware select_img_src trim u content σ) in
  userImages σ' = userImages σ
  ∧ images <$> heap σ' !! l = Some (images d ++ select_img_src content)
  ∧ direction <$> heap σ' !! l = Some (direction d).
Proof.
  intros Hu Hl. cbv zeta. unfold middleware. rewrite Hu.
  assert (heap (modify l (push_images (select_img_src content)) σ) !! l
          = Some (push_images (select_img_src content) d)) as Hpush.
  { rewrite lookup_modify, decide_True by done. by rewrite Hl. }
  destruct (0 <? length (select_img_src content)).
  - cbn [fst heap emit userImages]. by rewrite Hpush.
  - pose proof (middleware_rest_frame trim u content
                  (modify l (push_images (select_img_src content)) σ))
      as (H1 & H2).
    destruct (H2 l) as [H3 H4].
    split; [exact H1|]. rewrite H3, H4, Hpush. done.
Qed.

(** C2. A finalize that gets past its guard with fewer than two images
    sends the message asking for at least two and stops there.  When it
    continues it sets [processing] to [false]; it never calls [stitchImages]
    and sends nothing else, and [userImages], the timer table and every other
    session object are as before, so the session is still there.  The images
    of a later message of the same user are appended to the same list. *)
Theorem finalize_too_few_keeps_session select_img_src trim
    (u : string) (σ : State) (l : nat) (d : SessionData) :
  userImages σ !! u = Some l → heap σ !! l = Some d →
  processing d ≠ Some true → length (images d) < 2 →
  ∃ σ1,
    stitchAndSendImages u σ = (σ1, Some (AwaitTooFewSend u l))
    ∧ trace σ1 = trace σ ++ [Sent u (Text "请提供至少两张图片进行拼接。")]
    ∧ ∀ engine, ∃ σ2,
        resume_fin (AwaitTooFewSend u l) engine σ1 = (σ2, None)
        ∧ trace σ2 = trace σ1
        ∧ stitch_calls σ2 = stitch_calls σ
        ∧ userImages σ2 = userImages σ
        ∧ timeout σ2 = timeout σ ∧ timers σ2 = timers σ
        ∧ heap σ2 = <[l := mkSession (direction d) (images d) (Some false)]> (heap σ)
        ∧ ∀ content,
            let σ3 := fst (middleware select_img_src trim u content σ2) in
            userImages σ3 !! u = Some l
            ∧ images <$> heap σ3 !! l
              = Some (images d ++ select_img_src content).
Proof.
  intros Hu Hl Hp Hlen. eexists.
  split; [by apply (finalize_too_few u σ l d)|]. split; [reflexivity|].
  intros engine. eexists. split; [reflexivity|].
  split; [reflexivity|].
  split.
  { unfold stitch_calls. cbn [trace emit modify upd_heap].
    rewrite count_if_app. cbn. lia. }
  do 3 (split; [reflexivity|]).
  assert (heap (modify l (set_processing false)
                  (emit (Sent u (Text too_few_reply))
                     (modify l (set_processing true) σ)))
          = <[l := mkSession (direction d) (images d) (Some false)]> (heap σ))
    as Hheap.
  { cbn [heap emit modify upd_heap].
    apply list_eq. intros i. destruct (decide (l = i)) as [<-|Hne].
    - rewrite list_lookup_alter_eq, list_lookup_alter_eq, Hl.
      rewrite list_lookup_insert_eq by (by eapply lookup_lt_Some). done.
    - rewrite !list_lookup_alter_ne, list_lookup_insert_ne by done. done. }
  split; [exact Hheap|].
  intros content. cbv zeta.
  match goal with |- context [middleware _ _ _ _ ?s] => set (σ2 := s) end.
  assert (heap σ2 !! l = Some (mkSession (direction d) (images d) (Some false)))
    as Hl2.
  { unfold σ2. rewrite Hheap.
    apply list_lookup_insert_eq. by eapply lookup_lt_Some. }
  destruct (middleware_appends select_img_src trim u content σ2 l _ Hu Hl2)
    as (H1 & H2 & _).
  split; [by rewrite H1|exact H2].
Qed.

Lemma finalize_too_few_keeps_session_witness :
  ∃ σ1,
    stitchAndSendImages "alice" (st one_image)
    = (σ1, Some (AwaitTooFewSend "alice" 0))
    ∧ trace σ1 = trace (st one_image)
                 ++ [Sent "alice" (Text "请提供至少两张图片进行拼接。")].
Proof.
  destruct (finalize_too_few_keeps_session scan_img_src ascii_trim
              "alice" (st one_image) 0 (mkSession "横向" ["a.png"] None))
    as (σ1 & H1 & H2 & _).
  - vm_compute. reflexivity.
  - vm_compute. reflexivity.
  - discriminate.
  - simpl. lia.
  - exists σ1. split; [exact H1|exact H2].
Defined.

(** *** Starting a session *)

Lemma startSession_invalid (u : string) (arg : option string) (σ : State) :
  default "纵向" arg ≠ "横向" → default "纵向" arg ≠ "纵向" →
  startSession u arg σ = (σ, invalid_direction_reply).
Proof.
  intros H1 H2. unfold startSession, vertical, horizontal.
  apply String.eqb_neq in H1 as ->. apply String.eqb_neq in H2 as ->. done.
Qed.

(** C6, as the code has it.  With a valid direction the command returns the
    confirmation and makes [userImages] point, for this user, to a new
    session object with that direction, no images and no [processing]
    property; the objects that existed before are unchanged, so the images
    collected so far are no longer reachable for the user.  The timer table
    and the scheduled callbacks are exactly as before: a debounce timer that
    was pending is still pending. *)
Theorem startSession_replaces (u : string) (arg : option string) (σ : State) :
  let dir := default "纵向" arg in
  dir = "横向" ∨ dir = "纵向" →
  ∃ σ',
    startSession u arg σ = (σ', start_reply)
    ∧ userImages σ' !! u = Some (length (heap σ))
    ∧ heap σ' !! length (heap σ) = Some (mkSession dir [] None)
    ∧ (∀ l, l < length (heap σ) → heap σ' !! l = heap σ !! l)
    ∧ (∀ u', u' ≠ u → userImages σ' !! u' = userImages σ !! u')
    ∧ timeout σ' = timeout σ
    ∧ timers σ' = timers σ.
Proof.
  intros dir Hdir. unfold startSession. cbv zeta.
  change (default vertical arg) with dir.
  assert (negb (String.eqb dir horizontal) && negb (String.eqb dir vertical)
          = false) as ->.
  { destruct Hdir as [->| ->]; reflexivity. }
  eexists. split; [reflexivity|].
  cbn [userImages heap timeout timers upd_userImages upd_heap emit].
  split; [apply lookup_insert_eq|].
  split; [by rewrite lookup_app_r, Nat.sub_diag by lia|].
  split; [intros l Hl; by apply lookup_app_l|].
  split; [intros u' Hne; by apply lookup_insert_ne|].
  done.
Qed.

Lemma startSession_replaces_witness :
  ∃ σ',
    startSession "alice" None (st one_image) = (σ', start_reply)
    ∧ userImages σ' !! "alice" = Some 1
    ∧ heap σ' !! 1 = Some (mkSession "纵向" [] None)
    ∧ timers σ' = timers (st one_image).
Proof.
  destruct (startSession_replaces "alice" None (st one_image))
    as (σ' & H1 & H2 & H3 & _ & _ & _ & H4).
  - right. reflexivity.
  - exists σ'. split; [exact H1|]. split; [exact H2|]. split; [exact H3|exact H4].
Defined.

(** C6 as it is written fails for the timer: after the command has replaced
    Alice's session, the timer of her earlier image message is still
    scheduled and still in the timer table, and when it expires it runs
    finalize on the new, empty session, which answers that two images are
    needed. *)
Lemma startSession_keeps_old_timer :
  timers (st one_image) !! 0 = Some ("alice", 10000%N)
  ∧ timers restarted !! 0 = Some ("alice", 10000%N)
  ∧ timeout restarted !! "alice" = Some 0
  ∧ userImages restarted !! "alice" = Some 1
  ∧ heap restarted !! 1 = Some (mkSession "纵向" [] None)
  ∧ snd (fire 0 restarted)
    = Some (TimerAwaitFinalize (AwaitTooFewSend "alice" 1))
  ∧ trace (fst (fire 0 restarted))
    = trace restarted ++ [Sent "alice" (Text too_few_reply)]
  ∧ heap (fst (fire 0 restarted)) !! 1
    = Some (mkSession "纵向" [] (Some true)).
Proof. vm_compute. repeat split; reflexivity. Qed.

(** *** The order of the images *)

Section Order.

Context (select_img_src : string → list string) (trim : string → string).




(** The message with the keyword: its images are appended as well, and
    finalize is called on the whole list. *)
Lemma deliver_keyword (u final : string) (σ : State) (l : nat) (d : SessionData) :
  userImages σ !! u = Some l → heap σ !! l = Some d →
  processing d ≠ Some true → trim final = done_keyword →
  2 ≤ length (images d ++ select_img_src final) →
  ∃ σ',
    deliver select_img_src trim u final σ
    = (σ', Some (MwAwaitFinalize u
                   (AwaitStitch u (images d ++ select_img_src final)
                      (direction d))))
    ∧ last (trace σ')
      = Some (StitchCalled l (images d ++ select_img_src final) (direction d))
    ∧ stitch_calls σ' = S (stitch_calls σ).
Proof.
  intros Hu Hl Hp Hk Hlen. unfold deliver, middleware.
  rewrite Hu.
  set (d' := push_images (select_img_src final) d).
  assert (heap (modify l (push_images (select_img_src final)) σ) !! l = Some d')
    as Hpush.
  { rewrite lookup_modify, decide_True by done. by rewrite Hl. }
  apply String.eqb_eq in Hk.
  destruct (0 <? length (select_img_src final));
    unfold middleware_rest; rewrite Hk;
    erewrite (finalize_render u _ l d') by done;
    (eexists; split; [reflexivity|]);
    (split; [cbn [trace emit]; by rewrite last_snoc|]);
    unfold stitch_calls; cbn [trace emit modify upd_heap];
    rewrite !count_if_app; cbn; lia.
Qed.



End Order.


(** ** Invariants of the event loop *)

(** *** How the parts of the state move *)

Lemma busy_emit (e : Event) (σ : State) (l : nat) : busy (emit e σ) l ↔ busy σ l.
Proof. reflexivity. Qed.

Lemma busy_set_processing (b : bool) (l : nat) (σ : State) (l' : nat) :
  busy (modify l (set_processing b) σ) l'
  ↔ if decide (l = l') then is_Some (heap σ !! l) ∧ b = true else busy σ l'.
Proof.
  unfold busy. rewrite lookup_modify. case_decide as E; [subst l'|done].
  destruct (heap σ !! l) as [d|]; cbn.
  - split; [intros [= ->]; eauto|intros [_ ->]; done].
  - split; [done|intros [[? [=]] _]].
Qed.

Lemma busy_push_images (new : list string) (l : nat) (σ : State) (l' : nat) :
  busy (modify l (push_images new) σ) l' ↔ busy σ l'.
Proof.
  unfold busy. rewrite lookup_modify. case_decide as E; [subst l'|done].
  by destruct (heap σ !! l).
Qed.

Lemma length_heap_modify (l : nat) (f : SessionData → SessionData) (σ : State) :
  length (heap (modify l f σ)) = length (heap σ).
Proof. unfold modify. cbn [heap upd_heap]. apply length_alter. Qed.

Lemma renders_emit (l : nat) (e : Event) (σ : State) :
  renders l (emit e σ) = renders l σ + (if is_stitch_for l e then 1 else 0).
Proof.
  unfold renders. cbn [trace emit]. rewrite count_if_app.
  unfold count_if at 2. cbn. by destruct (is_stitch_for l e).
Qed.

Lemma busy_not_idle (σ : State) (l : nat) (d : SessionData) :
  heap σ !! l = Some d → processing d ≠ Some true → ¬ busy σ l.
Proof. unfold busy. intros -> Hp [= E]. done. Qed.

Lemma similar_refl (σ : State) : similar σ σ.
Proof. by repeat split. Qed.

Lemma similar_trans (σ1 σ2 σ3 : State) :
  similar σ1 σ2 → similar σ2 σ3 → similar σ1 σ3.
Proof.
  intros (A1 & A2 & A3 & A4) (B1 & B2 & B3 & B4).
  split; [congruence|]. split; [congruence|].
  split; intros l; [by rewrite B3, A3|by rewrite B4, A4].
Qed.

Lemma similar_clearTimeout (h : option nat) (σ : State) :
  similar σ (clearTimeout h σ).
Proof. destruct h; by repeat split. Qed.

Lemma similar_push (new : list string) (l : nat) (σ : State) :
  similar σ (modify l (push_images new) σ).
Proof.
  split; [done|]. split; [apply length_heap_modify|].
  split; [apply busy_push_images|done].
Qed.

Lemma similar_emit (e : Event) (σ : State) :
  (∀ l, is_stitch_for l e = false) → similar σ (emit e σ).
Proof.
  intros He. do 3 (split; [done|]). intros l.
  rewrite renders_emit, He. lia.
Qed.

(** *** The invariants cannot tell similar states apart *)

Lemma Inv_similar σ σ' p n r :
  Inv (mkMachine σ p n r) → similar σ σ' → Inv (mkMachine σ' p n r).
Proof.
  intros [I1 I2 I3 I4 I5 I6 I7 I8] (E1 & E2 & E3 & E4). cbn in *.
  constructor; cbn.
  - exact I1.
  - intros u l. rewrite E1, E2. apply I2.
  - intros u u' l. rewrite E1. apply I3.
  - intros l. rewrite E2, E4. apply I4.
  - intros i k l Hi Hw. rewrite E3, E4. by eapply I5.
  - exact I6.
  - intros l. rewrite E3, E4. apply I7.
  - intros u l. rewrite E1, E3. apply I8.
Qed.

(** *** Tasks that hold no finalize *)

Lemma Inv_park_plain σ p n r k :
  fin_of k = None →
  Inv (mkMachine σ p n r) → Inv (mkMachine σ (<[n := k]> p) (S n) r).
Proof.
  intros Hk [I1 I2 I3 I4 I5 I6 I7 I8]. cbn in *.
  assert (∀ l, ¬ waits_on k l) as Hnw.
  { intros l [u Hu]. congruence. }
  constructor; cbn.
  - intros i Hi. rewrite lookup_insert_ne by lia. apply I1. lia.
  - exact I2.
  - exact I3.
  - exact I4.
  - intros i k' l. rewrite lookup_insert. case_decide.
    + intros [= <-] Hw. by destruct (Hnw l).
    + apply I5.
  - intros i j ki kj l. rewrite !lookup_insert. repeat case_decide.
    + intros [= <-] _ Hw. by destruct (Hnw l).
    + intros [= <-] _ Hw. by destruct (Hnw l).
    + intros _ [= <-] _ Hw. by destruct (Hnw l).
    + apply I6.
  - exact I7.
  - intros u l Hu Hb. destruct (I8 u l Hu Hb) as (i & k' & f & Hi & Hf & Ho).
    exists i, k', f. split; [|done].
    rewrite lookup_insert_ne; [done|]. intros <-.
    rewrite I1 in Hi by lia. done.
Qed.

Lemma Inv_drop_plain σ p n r i k :
  p !! i = Some k → fin_of k = None →
  Inv (mkMachine σ p n r) → Inv (mkMachine σ (delete i p) n r).
Proof.
  intros Hi Hk [I1 I2 I3 I4 I5 I6 I7 I8]. cbn in *.
  constructor; cbn.
  - intros j Hj. rewrite lookup_delete. case_decide; [done|by apply I1].
  - exact I2.
  - exact I3.
  - exact I4.
  - intros j k' l. rewrite lookup_delete. case_decide; [done|apply I5].
  - intros j j' kj kj' l. rewrite !lookup_delete.
    repeat case_decide; try done. apply I6.
  - exact I7.
  - intros u l Hu Hb. destruct (I8 u l Hu Hb) as (j & k' & f & Hj & Hf & Ho).
    exists j, k', f. split; [|done].
    rewrite lookup_delete_ne; [done|]. intros <-. congruence.
Qed.

(** *** Finalize begins *)

Lemma Inv_finalize_start σ p n r u (wrap : FinTask → Task) :
  (∀ f, fin_of (wrap f) = Some f) →
  Inv (mkMachine σ p n r) →
  Inv (park (mkMachine σ p n r)
         (fst (stitchAndSendImages u σ), wrap <$> snd (stitchAndSendImages u σ))).
Proof.
  intros Hwrap HI.
  destruct (finalize_cases u σ) as [->|(l & d & Hu & Hl & Hp & Hlen)];
    [exact HI|].
  pose proof (busy_not_idle σ l d Hl Hp) as Hidle.
  destruct HI as [I1 I2 I3 I4 I5 I6 I7 I8]. cbn [st pool next_task] in *.
  assert (renders l σ = 0) as Hr0.
  { destruct (I7 l) as [Hle Hb]. destruct (renders l σ) as [|[|?]]; [done| |lia].
    exfalso. by apply Hidle, Hb. }
  assert (∀ i k, p !! i = Some k → ¬ waits_on k l) as Hnone.
  { intros i k Hi Hw. by apply Hidle, (I5 i k l Hi Hw). }
  assert (∀ l', busy (modify l (set_processing true) σ) l' ↔ l' = l ∨ busy σ l')
    as Hbusy.
  { intros l'. rewrite busy_set_processing. case_decide as E.
    - subst. split; [by left|]. intros _. split; [by eexists|done].
    - split; [by right|]. intros [->|]; done. }
  destruct Hlen as [Hlen|Hlen].
  - rewrite (finalize_too_few u σ l d) by done. cbn [fst snd fmap option_fmap option_map park].
    constructor; cbn [st pool next_task].
    + intros i Hi. rewrite lookup_insert_ne by lia. apply I1. lia.
    + intros u' l'. cbn [userImages heap emit]. rewrite length_heap_modify.
      apply I2.
    + exact I3.
    + intros l'. rewrite renders_emit. cbn [heap emit is_stitch_for].
      rewrite length_heap_modify, Nat.add_0_r. apply I4.
    + intros i k l'. rewrite lookup_insert, renders_emit, busy_emit, Hbusy.
      cbn [is_stitch_for]. rewrite Nat.add_0_r. case_decide.
      * intros [= <-] [u' Hw]. rewrite Hwrap in Hw. injection Hw as _ <-.
        split; [by left|exact Hr0].
      * intros Hi Hw. destruct (I5 i k l' Hi Hw). split; [by right|done].
    + intros i j ki kj l'. rewrite !lookup_insert. repeat case_decide.
      * congruence.
      * intros [= <-] Hj [u' Hw]. rewrite Hwrap in Hw. injection Hw as _ <-.
        intros Hwj. by destruct (Hnone j kj Hj).
      * intros Hi [= <-] Hwi [u' Hw]. rewrite Hwrap in Hw. injection Hw as _ <-.
        by destruct (Hnone i ki Hi).
      * apply I6.
    + intros l'. rewrite renders_emit, busy_emit, Hbusy. cbn [is_stitch_for].
      rewrite Nat.add_0_r. destruct (I7 l') as [? Hb]. split; [done|].
      intros. right. by apply Hb.
    + intros u' l'. cbn [userImages emit]. rewrite busy_emit, Hbusy.
      intros Hu' [->|Hb].
      * exists n, (wrap (AwaitTooFewSend u l)), (AwaitTooFewSend u l).
        rewrite lookup_insert_eq. by rewrite Hwrap.
      * destruct (I8 u' l' Hu' Hb) as (i & k & f & Hi & Hf & Ho).
        exists i, k, f. split; [|done].
        rewrite lookup_insert_ne; [done|]. intros <-.
        rewrite I1 in Hi by lia. done.
  - rewrite (finalize_render u σ l d) by done. cbn [fst snd fmap option_fmap option_map park].
    assert (∀ l' e, renders l' (emit (StitchCalled l (images d) (direction d))
                               (emit (Logged LvInfo e) (modify l (set_processing true) σ)))
                  = renders l' σ + (if decide (l' = l) then 1 else 0)) as Hren.
    { intros l' e. rewrite !renders_emit. cbn [is_stitch_for].
      rewrite Nat.add_0_r. unfold renders at 1. cbn [trace modify upd_heap].
      fold (renders l' σ). case_decide as E.
      - subst. by rewrite Nat.eqb_refl.
      - apply Nat.eqb_neq in E. by rewrite E. }
    constructor; cbn [st pool next_task].
    + intros i Hi. rewrite lookup_insert_ne by lia. apply I1. lia.
    + intros u' l'. cbn [userImages heap emit]. rewrite length_heap_modify.
      apply I2.
    + exact I3.
    + intros l'. rewrite Hren. cbn [heap emit]. rewrite length_heap_modify.
      intros Hl'. rewrite I4 by done.
      apply lookup_lt_Some in Hl. rewrite decide_False by lia. done.
    + intros i k l'. rewrite lookup_insert, Hren, !busy_emit, Hbusy.
      case_decide.
      * intros [= <-] [u' Hw]. rewrite Hwrap in Hw. done.
      * intros Hi Hw. destruct (I5 i k l' Hi Hw) as [Hb Hr].
        split; [by right|]. rewrite Hr. rewrite decide_False; [done|].
        intros ->. by destruct (Hnone i k Hi).
    + intros i j ki kj l'. rewrite !lookup_insert. repeat case_decide.
      * congruence.
      * intros [= <-] _ [u' Hw]. rewrite Hwrap in Hw. done.
      * intros _ [= <-] _ [u' Hw]. rewrite Hwrap in Hw. done.
      * apply I6.
    + intros l'. rewrite Hren, !busy_emit, Hbusy. destruct (I7 l') as [Hle Hb].
      case_decide as E.
      * subst l'. rewrite Hr0. split; [lia|]. by left.
      * rewrite Nat.add_0_r. split; [done|]. intros. right. by apply Hb.
    + intros u' l'. cbn [userImages emit]. rewrite !busy_emit, Hbusy.
      intros Hu' [->|Hb].
      * exists n, (wrap (AwaitStitch u (images d) (direction d))),
          (AwaitStitch u (images d) (direction d)).
        rewrite lookup_insert_eq, Hwrap. repeat split. cbn.
        by apply (I3 u u' l).
      * destruct (I8 u' l' Hu' Hb) as (i & k & f & Hi & Hf & Ho).
        exists i, k, f. split; [|done].
        rewrite lookup_insert_ne; [done|]. intros <-.
        rewrite I1 in Hi by lia. done.
Qed.

(** *** Finalize continues *)

Lemma Inv_finalize_resume σ p n r i k f engine (wrap : FinTask → Task) :
  (∀ f, fin_of (wrap f) = Some f) →
  p !! i = Some k → fin_of k = Some f →
  Inv (mkMachine σ p n r) →
  Inv (park (mkMachine σ (delete i p) n r)
         (fst (resume_fin f engine σ), wrap <$> snd (resume_fin f engine σ))).
Proof.
  intros Hwrap Hi Hk [I1 I2 I3 I4 I5 I6 I7 I8]. cbn [st pool next_task] in *.
  destruct f as [u0 l|u0 imageUrls dir|u0].
  - (* the flag is reset *)
    cbn [resume_fin fst snd fmap option_fmap option_map park].
    assert (waits_on k l) as Hw by (by exists u0).
    destruct (I5 i k l Hi Hw) as [Hb Hr0].
    assert (∀ l', busy (modify l (set_processing false) σ) l'
                  ↔ l' ≠ l ∧ busy σ l') as Hbusy.
    { intros l'. rewrite busy_set_processing. case_decide as E.
      - subst. split; [by intros [_ ?]|by intros [? _]].
      - split; [done|by intros [_ ?]]. }
    constructor; cbn [st pool next_task].
    + intros j Hj. rewrite lookup_delete. case_decide; [done|by apply I1].
    + intros u l'. cbn [userImages]. rewrite length_heap_modify. apply I2.
    + exact I3.
    + intros l'. rewrite length_heap_modify. apply I4.
    + intros j kj l'. rewrite lookup_delete. case_decide as E; [done|].
      intros Hj Hwj. rewrite Hbusy. destruct (I5 j kj l' Hj Hwj).
      repeat split; try done. intros ->. by apply E, (I6 i j k kj l).
    + intros j j' kj kj' l'. rewrite !lookup_delete.
      repeat case_decide; try done. apply I6.
    + intros l'. rewrite Hbusy. destruct (I7 l') as [Hle Hb1].
      split; [done|]. intros H1. split; [|by apply Hb1].
      intros ->. change (renders l σ = 1) in H1. lia.
    + intros u l'. cbn [userImages]. rewrite Hbusy. intros Hu [Hne Hb'].
      destruct (I8 u l' Hu Hb') as (j & kj & f & Hj & Hf & Ho).
      exists j, kj, f. split; [|done].
      rewrite lookup_delete_ne; [done|]. intros <-.
      rewrite Hi in Hj. injection Hj as <-. rewrite Hk in Hf.
      injection Hf as <-. cbn in Ho. done.
  - (* the render has settled *)
    assert (∃ σ', resume_fin (AwaitStitch u0 imageUrls dir) engine σ
                  = (σ', Some (AwaitResultSend u0)) ∧ similar σ σ')
      as (σ' & -> & Hsim).
    { cbn [resume_fin].
      destruct (snd (stitchImages engine imageUrls dir)); eexists;
        (split; [reflexivity|]).
      - eapply similar_trans; by apply similar_emit.
      - by apply similar_emit. }
    cbn [fst snd fmap option_fmap option_map park next_task pool st].
    apply (Inv_similar σ); [|exact Hsim].
    constructor; cbn [st pool next_task].
    + intros j Hj. rewrite lookup_insert_ne by lia.
      rewrite lookup_delete. case_decide; [done|apply I1; lia].
    + exact I2.
    + exact I3.
    + exact I4.
    + intros j kj l'. rewrite lookup_insert. case_decide.
      * intros [= <-] [u' Hw]. rewrite Hwrap in Hw. done.
      * rewrite lookup_delete. case_decide; [done|apply I5].
    + intros j j' kj kj' l'. rewrite !lookup_insert. repeat case_decide.
      * congruence.
      * intros [= <-] _ [u' Hw]. rewrite Hwrap in Hw. done.
      * intros _ [= <-] _ [u' Hw]. rewrite Hwrap in Hw. done.
      * rewrite !lookup_delete. repeat case_decide; try done. apply I6.
    + exact I7.
    + intros u l' Hu Hb.
      destruct (I8 u l' Hu Hb) as (j & kj & f & Hj & Hf & Ho).
      destruct (decide (j = i)) as [->|Hne].
      * rewrite Hi in Hj. injection Hj as <-. rewrite Hk in Hf.
        injection Hf as <-. cbn in Ho.
        exists n, (wrap (AwaitResultSend u0)), (AwaitResultSend u0).
        rewrite lookup_insert_eq, Hwrap. done.
      * exists j, kj, f. split; [|done].
        rewrite lookup_insert_ne, lookup_delete_ne; [done|done|].
        intros <-. rewrite I1 in Hj by lia. done.
  - (* the finally block *)
    cbn [resume_fin fst snd fmap option_fmap option_map park].
    constructor; cbn [st pool next_task].
    + intros j Hj. rewrite lookup_delete. case_decide; [done|by apply I1].
    + intros u l. cbn [userImages heap upd_timeout upd_userImages].
      rewrite lookup_delete. case_decide; [done|apply I2].
    + intros u u' l. cbn [userImages upd_timeout upd_userImages].
      rewrite !lookup_delete. repeat case_decide; try done. apply I3.
    + exact I4.
    + intros j kj l. rewrite lookup_delete. case_decide; [done|apply I5].
    + intros j j' kj kj' l. rewrite !lookup_delete.
      repeat case_decide; try done. apply I6.
    + exact I7.
    + intros u l. cbn [userImages upd_timeout upd_userImages].
      rewrite lookup_delete. case_decide as E; [done|]. intros Hu Hb.
      destruct (I8 u l Hu Hb) as (j & kj & f & Hj & Hf & Ho).
      exists j, kj, f. split; [|done].
      rewrite lookup_delete_ne; [done|]. intros <-.
      rewrite Hi in Hj. injection Hj as <-. rewrite Hk in Hf.
      injection Hf as <-. cbn in Ho. done.
Qed.

(** *** The command *)

Lemma Inv_startSession σ p n r u arg reply :
  Inv (mkMachine σ p n r) →
  Inv (mkMachine (fst (startSession u arg σ)) p n (r ++ [reply])).
Proof.
  intros [I1 I2 I3 I4 I5 I6 I7 I8]. cbn [st pool next_task] in *.
  unfold startSession. cbv zeta.
  destruct (negb (String.eqb (default vertical arg) horizontal)
            && negb (String.eqb (default vertical arg) vertical));
    [by constructor|].
  cbn [fst].
  set (dir := default vertical arg).
  set (e := Logged LvInfo _).
  assert (∀ l, busy (upd_userImages <[u := length (heap (emit e σ))]>
                       (upd_heap (λ h, h ++ [mkSession dir [] None]) (emit e σ))) l
               ↔ busy σ l) as Hbusy.
  { intros l. unfold busy. cbn [heap upd_userImages upd_heap emit].
    destruct (decide (l < length (heap σ))) as [Hlt|Hge].
    - by rewrite lookup_app_l.
    - rewrite (lookup_ge_None_2 (heap σ)) by lia.
      destruct (decide (l = length (heap σ))) as [->|Hne].
      + by rewrite lookup_app_r, Nat.sub_diag by lia.
      + rewrite lookup_ge_None_2; [done|]. rewrite length_app. cbn. lia. }
  assert (∀ l, renders l (upd_userImages <[u := length (heap (emit e σ))]>
                       (upd_heap (λ h, h ++ [mkSession dir [] None]) (emit e σ)))
               = renders l σ) as Hren.
  { intros l. change (renders l (emit e σ) = renders l σ).
    rewrite renders_emit. cbn. lia. }
  constructor; cbn [st pool next_task].
  - exact I1.
  - intros u' l. cbn [userImages heap upd_userImages upd_heap emit].
    rewrite length_app, lookup_insert. cbn. case_decide.
    + intros [= <-]. lia.
    + intros Hu. apply I2 in Hu. lia.
  - intros u1 u2 l. cbn [userImages heap upd_userImages upd_heap emit].
    rewrite !lookup_insert. repeat case_decide; try congruence.
    + intros [= <-] Hu. apply I2 in Hu. lia.
    + intros Hu [= <-]. apply I2 in Hu. lia.
    + apply I3.
  - intros l. rewrite Hren. cbn [heap upd_userImages upd_heap emit].
    rewrite length_app. cbn. intros Hl. apply I4. lia.
  - intros i k l Hi Hw. rewrite Hbusy, Hren. by eapply I5.
  - exact I6.
  - intros l. rewrite Hbusy, Hren. apply I7.
  - intros u' l. rewrite Hbusy. cbn [userImages heap upd_userImages upd_heap emit].
    rewrite lookup_insert. case_decide.
    + intros [= <-] Hb. exfalso. unfold busy in Hb.
      rewrite lookup_ge_None_2 in Hb; [done|lia].
    + apply I8.
Qed.

(** *** Every step keeps the invariants *)

Section Steps.

Context (select_img_src : string → list string) (trim : string → string).

Lemma Inv_middleware_rest σ p n r u content :
  Inv (mkMachine σ p n r) →
  Inv (park (mkMachine σ p n r) (middleware_rest trim u content σ)).
Proof.
  intros HI. unfold middleware_rest.
  destruct (String.eqb (trim content) done_keyword).
  - pose proof (Inv_finalize_start σ p n r u (MwAwaitFinalize u)
                  ltac:(done) HI) as H.
    destruct (stitchAndSendImages u σ) as [σ' [k|]];
      cbn [fst snd fmap option_fmap option_map] in H; [exact H|].
    cbn [park] in *. eapply Inv_similar; [exact H|].
    apply similar_clearTimeout.
  - cbn [park]. eapply Inv_similar; [exact HI|].
    destruct (timeout σ !! u); by repeat split.
Qed.

Lemma Inv_step (m : Machine) (i : Input) :
  Inv m → Inv (step select_img_src trim m i).
Proof.
  destruct m as [σ p n r]. intros HI.
  destruct i as [u arg|u content|t|i engine]; cbn [step st pool next_task replies].
  - pose proof (Inv_startSession σ p n r u arg (u, snd (startSession u arg σ)) HI).
    by destruct (startSession u arg σ).
  - unfold middleware. destruct (userImages σ !! u) as [l|].
    + assert (Inv (mkMachine (modify l (push_images (select_img_src content)) σ)
                     p n r)) as HI'.
      { eapply Inv_similar; [exact HI|apply similar_push]. }
      destruct (0 <? length (select_img_src content)).
      * cbn [park next_task pool replies].
        apply Inv_park_plain; [done|].
        eapply Inv_similar; [exact HI'|]. by apply similar_emit.
      * pose proof (Inv_middleware_rest _ p n r u content HI') as H.
        destruct (middleware_rest trim u content _) as [σ' [k|]]; exact H.
    + cbn [park]. eapply Inv_similar; [exact HI|]. by apply similar_emit.
  - unfold fire. destruct (timers σ !! t) as [[u ms]|]; [|exact HI].
    assert (Inv (mkMachine (upd_timers (delete t) σ) p n r)) as HI'.
    { eapply Inv_similar; [exact HI|]. by repeat split. }
    pose proof (Inv_finalize_start _ p n r u TimerAwaitFinalize
                  ltac:(done) HI') as H.
    destruct (stitchAndSendImages u (upd_timers (delete t) σ)) as [σ' [k|]];
      exact H.
  - destruct (p !! i) as [k|] eqn:Hi; [|exact HI].
    destruct k as [u content|u f|f]; cbn [resume].
    + pose proof (Inv_middleware_rest σ (delete i p) n r u content
                    (Inv_drop_plain σ p n r i _ Hi eq_refl HI)) as H.
      destruct (middleware_rest trim u content σ) as [σ' [k|]]; exact H.
    + pose proof (Inv_finalize_resume σ p n r i _ f engine (MwAwaitFinalize u)
                    ltac:(done) Hi eq_refl HI) as H.
      destruct (resume_fin f engine σ) as [σ' [k|]];
        cbn [fst snd fmap option_fmap option_map] in H; [exact H|].
      cbn [park] in *. eapply Inv_similar; [exact H|].
      apply similar_clearTimeout.
    + pose proof (Inv_finalize_resume σ p n r i _ f engine TimerAwaitFinalize
                    ltac:(done) Hi eq_refl HI) as H.
      destruct (resume_fin f engine σ) as [σ' [k|]]; exact H.
Qed.

Lemma Inv_boot : Inv boot.
Proof.
  constructor; cbn; try done.
  - intros l. split; [lia|]. intros [=].
Qed.

Lemma reachable_Inv (m : Machine) :
  reachable select_img_src trim m → Inv m.
Proof. induction 1; [apply Inv_boot|by apply Inv_step]. Qed.

(** However messages, commands, timers and settling promises interleave,
    [stitchImages] is called at most once for a session object. *)
Theorem render_at_most_once (m : Machine) (l : nat) :
  reachable select_img_src trim m → renders l (st m) ≤ 1.
Proof. intros Hm. apply (inv_once m (reachable_Inv m Hm) l). Qed.


(** [userImages] never holds a reference to an object that was not
    allocated, and never the same object for two users. *)
Theorem store_well_formed (m : Machine) (u : string) (l : nat) :
  reachable select_img_src trim m →
  userImages (st m) !! u = Some l →
  is_Some (heap (st m) !! l)
  ∧ ∀ u', userImages (st m) !! u' = Some l → u' = u.
Proof.
  intros Hm Hu. pose proof (reachable_Inv m Hm) as HI. split.
  - apply lookup_lt_is_Some. by eapply inv_store.
  - intros u' Hu'. by eapply inv_inj.
Qed.

End Steps.

(** *** The keyword followed by the timer *)

Section KeywordAndTimer.

Context (select_img_src : string → list string) (trim : string → string).

(** The keyword and then the timer, as the event loop runs them: the
    finalize of the keyword is suspended in [stitchImages], the timer of the
    earlier message is still scheduled because [clearTimeout] comes after the
    [await], and when it expires its finalize returns at the guard. *)
Lemma keyword_then_timer_renders_once (u content : string) (t : nat) (ms : N)
    (σ : State) (l : nat) (d : SessionData) :
  userImages σ !! u = Some l → heap σ !! l = Some d →
  processing d ≠ Some true → trim content = done_keyword →
  2 ≤ length (images d ++ select_img_src content) →
  timers σ !! t = Some (u, ms) →
  let σ1 := fst (deliver select_img_src trim u content σ) in
  stitch_calls σ1 = S (stitch_calls σ)
  ∧ timers σ1 !! t = Some (u, ms)
  ∧ fire t σ1 = (upd_timers (delete t) σ1, None).
Proof.
  intros Hu Hl Hp Hk Hlen Ht. cbv zeta.
  destruct (deliver_keyword select_img_src trim u content σ l d Hu Hl Hp Hk Hlen)
    as (σ1 & E & _ & Hcalls).
  assert (timers σ1 = timers σ ∧ userImages σ1 !! u = Some l
          ∧ busy σ1 l) as (Htm & Hu1 & Hb).
  { revert E. unfold deliver, middleware. rewrite Hu.
    set (d' := push_images (select_img_src content) d).
    assert (heap (modify l (push_images (select_img_src content)) σ) !! l = Some d')
      as Hpush.
    { rewrite lookup_modify, decide_True by done. by rewrite Hl. }
    apply String.eqb_eq in Hk.
    destruct (0 <? length (select_img_src content));
      unfold middleware_rest; rewrite Hk;
      erewrite (finalize_render u _ l d') by done;
      intros [= <-]; (split; [reflexivity|]); (split; [exact Hu|]);
      rewrite !busy_emit; apply busy_set_processing;
      rewrite decide_True by done; (split; [|done]);
      rewrite ?busy_emit; by eexists. }
  rewrite E. cbn [fst]. split; [exact Hcalls|]. split; [by rewrite Htm|].
  unfold fire. rewrite Htm, Ht.
  unfold busy in Hb.
  destruct (heap σ1 !! l) as [d1|] eqn:Hl1; [|done].
  injection Hb as Hb.
  by rewrite (finalize_in_flight u (upd_timers (delete t) σ1) l d1).
Qed.

End KeywordAndTimer.

(** ** The scenarios of the specification, run *)

Example three_images_in_send_order :
  trace (st scenario_three_images)
  = [Logged LvInfo "[拼图] 用户 bob 开始拼接图片，方向：纵向";
     Sent "bob" (Text "已获取 1 张图片。");
     Sent "bob" (Text "已获取 3 张图片。");
     Logged LvInfo "[拼图] 开始拼接图片，方向：纵向，图片数量：3";
     StitchCalled 0 ["1.png"; "2.png"; "3.png"] "纵向";
     Sent "bob" (Image [] "image/png")]
  ∧ userImages (st scenario_three_images) !! "bob" = None
  ∧ pool scenario_three_images = ∅.
Proof. vm_compute. repeat split; reflexivity. Qed.

Example timeout_with_one_image :
  trace (st scenario_timeout_one_image)
  = trace (st one_image) ++ [Sent "alice" (Text too_few_reply)]
  ∧ userImages (st scenario_timeout_one_image) !! "alice" = Some 0
  ∧ heap (st scenario_timeout_one_image) !! 0
    = Some (mkSession "横向" ["a.png"] (Some false)).
Proof. vm_compute. repeat split; reflexivity. Qed.

Example two_lost_connections :
  count_if is_sleep (fst (stitchImages flaky_engine ["a.png"; "b.png"] "纵向")) = 2
  ∧ trace (st scenario_flaky)
    = trace (st two_images)
      ++ [Logged LvInfo "[拼图] 开始拼接图片，方向：纵向，图片数量：2";
          StitchCalled 0 ["a.png"; "b.png"] "纵向";
          Sent "alice" (Image [] "image/png")]
  ∧ userImages (st scenario_flaky) !! "alice" = None.
Proof. vm_compute. repeat split; reflexivity. Qed.

Example fatal_render_error :
  attempts_made (stitchImages timeout_engine ["a.png"; "b.png"] "纵向") = 1
  ∧ trace (st scenario_fatal)
    = trace (st two_images)
      ++ [Logged LvInfo "[拼图] 开始拼接图片，方向：纵向，图片数量：2";
          StitchCalled 0 ["a.png"; "b.png"] "纵向";
          Logged LvError
            "[拼图] 拼接图片时发生错误：Navigation timeout of 30000 ms exceeded";
          Sent "alice" (Text failure_reply)]
  ∧ userImages (st scenario_fatal) !! "alice" = None
  ∧ timeout (st scenario_fatal) !! "alice" = None.
Proof. vm_compute. repeat split; reflexivity. Qed.

(** ** Further properties of the renderer *)

(** *** [includes] is the substring test *)




(** *** What the engine is asked to do *)







(** ** Further properties of the controller *)

(** *** What holds of every state *)

Lemma Sound_init : Sound init.
Proof.
  constructor; cbn; intros *; try (by rewrite lookup_empty).
  - by rewrite lookup_nil.
  - by intros ?%elem_of_nil.
Qed.

Lemma Sound_emit (e : Event) (σ : State) :
  stitch_ok e → Sound σ → Sound (emit e σ).
Proof.
  intros He [S1 S2 S3 S4]. constructor; try done.
  intros e'. cbn [trace emit]. rewrite elem_of_app, list_elem_of_singleton.
  intros [?| ->]; [by apply S2|done].
Qed.

Lemma Sound_modify (l : nat) (f : SessionData → SessionData) (σ : State) :
  (∀ d, direction (f d) = direction d) → Sound σ → Sound (modify l f σ).
Proof.
  intros Hf [S1 S2 S3 S4]. constructor; try done.
  intros l' d'. rewrite lookup_modify. case_decide; [|apply S1].
  destruct (heap σ !! l') as [d|] eqn:E; [|done].
  intros [= <-]. rewrite Hf. by eapply S1.
Qed.

Lemma Sound_clearTimeout (h : option nat) (σ : State) :
  Sound σ → Sound (clearTimeout h σ).
Proof.
  intros [S1 S2 S3 S4]. destruct h as [t|]; [|done].
  constructor; try done.
  intros t' u ms. cbn [timers next_timer clearTimeout upd_timers].
  rewrite lookup_delete. case_decide; [done|apply S3].
Qed.

Lemma Sound_upd_timers_delete (t : nat) (σ : State) :
  Sound σ → Sound (upd_timers (delete t) σ).
Proof. apply (Sound_clearTimeout (Some t)). Qed.

Lemma Sound_reschedule (u : string) (σ : State) :
  Sound σ →
  Sound (upd_timeout <[u := (setTimeout u debounceMs σ).2]>
           (setTimeout u debounceMs σ).1).
Proof.
  intros [S1 S2 S3 S4]. constructor; try done.
  - intros t u' ms. cbn [timers next_timer setTimeout upd_timeout fst snd].
    rewrite lookup_insert. case_decide.
    + intros [= <- <-]. split; [lia|done].
    + intros H'. destruct (S3 _ _ _ H'). split; [lia|done].
  - intros u' t. cbn [timeout next_timer setTimeout upd_timeout fst snd].
    rewrite lookup_insert. case_decide.
    + intros [= <-]. lia.
    + intros H'. apply S4 in H'. lia.
Qed.

Lemma Sound_finally (u : string) (σ : State) :
  Sound σ → Sound (upd_timeout (delete u) (upd_userImages (delete u) σ)).
Proof.
  intros [S1 S2 S3 S4]. constructor; try done.
  intros u' t. cbn [timeout next_timer upd_timeout upd_userImages].
  rewrite lookup_delete. case_decide; [done|apply S4].
Qed.

Lemma Sound_startSession (u : string) (arg : option string) (σ : State) :
  Sound σ → Sound (startSession u arg σ).1.
Proof.
  intros HS. unfold startSession. cbv zeta.
  destruct (String.eqb_spec (default vertical arg) horizontal) as [E1|E1];
    [|destruct (String.eqb_spec (default vertical arg) vertical) as [E2|E2]];
    cbn [negb andb fst]; try done.
  all: apply (Sound_emit (Logged LvInfo
         ("[拼图] 用户 " +:+ u +:+ " 开始拼接图片，方向：" +:+ default vertical arg)))
         in HS; [|done].
  all: destruct HS as [S1 S2 S3 S4]; constructor; try done.
  all: intros l d; cbn [heap upd_userImages upd_heap];
    rewrite lookup_app; destruct (heap (emit _ σ) !! l) eqn:E;
    [intros [= <-]; by eapply S1|].
  all: destruct (l - length (heap (emit _ σ))) as [|?]; [|done];
    intros [= <-]; cbn; unfold valid_direction; auto.
Qed.

Lemma Sound_finalize (u : string) (σ : State) :
  Sound σ → Sound (stitchAndSendImages u σ).1.
Proof.
  intros HS.
  destruct (finalize_cases u σ) as [->|(l & d & Hu & Hl & Hp & [Hlen|Hlen])];
    [done| |].
  - rewrite (finalize_too_few u σ l d) by done. cbn [fst].
    apply Sound_emit; [done|]. by apply Sound_modify.
  - rewrite (finalize_render u σ l d) by done. cbn [fst].
    apply Sound_emit.
    + split; [done|]. by eapply sound_dirs.
    + apply Sound_emit; [done|]. by apply Sound_modify.
Qed.

Lemma Sound_resume_fin (k : FinTask) (engine : nat → AttemptOutcome) (σ : State) :
  Sound σ → Sound (resume_fin k engine σ).1.
Proof.
  intros HS. destruct k as [u l|u imageUrls dir|u]; cbn [resume_fin].
  - by apply Sound_modify.
  - destruct (snd (stitchImages engine imageUrls dir)); cbn [fst];
      repeat apply Sound_emit; done.
  - by apply Sound_finally.
Qed.

Section SoundSteps.

Context (select_img_src : string → list string) (trim : string → string).

Lemma Sound_middleware_rest (u content : string) (σ : State) :
  Sound σ → Sound (middleware_rest trim u content σ).1.
Proof.
  intros HS. unfold middleware_rest.
  destruct (String.eqb (trim content) done_keyword).
  - pose proof (Sound_finalize u σ HS) as H.
    destruct (stitchAndSendImages u σ) as [σ' [k|]]; cbn [fst] in *; [done|].
    by apply Sound_clearTimeout.
  - apply (Sound_reschedule u (clearTimeout (timeout σ !! u) σ)).
    by apply Sound_clearTimeout.
Qed.

Lemma Sound_middleware (u content : string) (σ : State) :
  Sound σ → Sound (middleware select_img_src trim u content σ).1.
Proof.
  intros HS. unfold middleware.
  destruct (userImages σ !! u) as [l|]; [|by apply Sound_emit].
  assert (Sound (modify l (push_images (select_img_src content)) σ)) as HS'
    by (by apply Sound_modify).
  destruct (0 <? length (select_img_src content)).
  - by apply Sound_emit.
  - by apply Sound_middleware_rest.
Qed.

Lemma Sound_fire (t : nat) (σ : State) : Sound σ → Sound (fire t σ).1.
Proof.
  intros HS. unfold fire. destruct (timers σ !! t) as [[u ms]|]; [|done].
  pose proof (Sound_finalize u _ (Sound_upd_timers_delete t σ HS)) as H.
  by destruct (stitchAndSendImages u (upd_timers (delete t) σ)) as [σ' [k|]].
Qed.

Lemma Sound_resume (k : Task) (engine : nat → AttemptOutcome) (σ : State) :
  Sound σ → Sound (resume trim k engine σ).1.
Proof.
  intros HS. destruct k as [u content|u f|f]; cbn [resume].
  - by apply Sound_middleware_rest.
  - pose proof (Sound_resume_fin f engine σ HS) as H.
    destruct (resume_fin f engine σ) as [σ' [k|]]; cbn [fst] in *; [done|].
    by apply Sound_clearTimeout.
  - pose proof (Sound_resume_fin f engine σ HS) as H.
    by destruct (resume_fin f engine σ) as [σ' [k|]].
Qed.

Lemma st_park (m : Machine) (r : State * option Task) : st (park m r) = r.1.
Proof. by destruct r as [σ [k|]]. Qed.

Lemma Sound_step (m : Machine) (i : Input) :
  Sound (st m) → Sound (st (step select_img_src trim m i)).
Proof.
  intros HS. destruct i as [u arg|u content|t|i engine]; cbn [step].
  - pose proof (Sound_startSession u arg (st m) HS) as H.
    by destruct (startSession u arg (st m)).
  - rewrite st_park. by apply Sound_middleware.
  - rewrite st_park. by apply Sound_fire.
  - destruct (pool m !! i) as [k|]; [|done].
    rewrite st_park. by apply Sound_resume.
Qed.

Lemma reachable_Sound (m : Machine) :
  reachable select_img_src trim m → Sound (st m).
Proof. induction 1; [apply Sound_init|by apply Sound_step]. Qed.

(** In no run is [stitchImages] called with fewer than two images or with a
    direction other than the two tokens. *)
Theorem stitch_never_called_short (m : Machine) (l : nat)
    (imageUrls : list string) (dir : string) :
  reachable select_img_src trim m →
  StitchCalled l imageUrls dir ∈ trace (st m) →
  2 ≤ length imageUrls ∧ (dir = "横向" ∨ dir = "纵向").
Proof.
  intros Hm Hin.
  apply (sound_trace _ (reachable_Sound m Hm) _ Hin).
Qed.

(** Every session object of a run has one of the two directions. *)
Theorem sessions_have_valid_direction (m : Machine) (l : nat) (d : SessionData) :
  reachable select_img_src trim m →
  heap (st m) !! l = Some d →
  direction d = "横向" ∨ direction d = "纵向".
Proof. intros Hm Hl. apply (sound_dirs _ (reachable_Sound m Hm) _ _ Hl). Qed.

(** Every callback the runtime has scheduled waits for 10000 ms, and the
    number of the next timer is above every scheduled callback and every
    entry of the timer table: a new timer never takes the place of one that
    is scheduled or referenced. *)
Theorem timers_are_debounce_timers (m : Machine) :
  reachable select_img_src trim m →
  (∀ t u ms, timers (st m) !! t = Some (u, ms) →
     ms = 10000%N ∧ t < next_timer (st m))
  ∧ (∀ u t, timeout (st m) !! u = Some t → t < next_timer (st m))
  ∧ timers (st m) !! next_timer (st m) = None.
Proof.
  intros Hm. pose proof (reachable_Sound m Hm) as [S1 S2 S3 S4].
  split; [|split].
  - intros t u ms H. destruct (S3 _ _ _ H). done.
  - exact S4.
  - destruct (timers (st m) !! next_timer (st m)) as [[u ms]|] eqn:E; [|done].
    destruct (S3 _ _ _ E). lia.
Qed.

End SoundSteps.

(** *** Session objects only grow *)

Lemma grows_refl (σ : State) : grows σ σ.
Proof. intros l d H. exists d. repeat split; [done|]. exists []. by rewrite app_nil_r. Qed.

Lemma grows_trans (σ1 σ2 σ3 : State) : grows σ1 σ2 → grows σ2 σ3 → grows σ1 σ3.
Proof.
  intros H12 H23 l d H.
  destruct (H12 l d H) as (d2 & H2 & E2 & new2 & I2).
  destruct (H23 l d2 H2) as (d3 & H3 & E3 & new3 & I3).
  exists d3. split; [done|]. split; [congruence|].
  exists (new2 ++ new3). by rewrite I3, I2, app_assoc.
Qed.

Lemma grows_same_heap (σ σ' : State) : heap σ' = heap σ → grows σ σ'.
Proof. intros E l d H. rewrite E. by apply grows_refl. Qed.

Lemma grows_modify (l : nat) (f : SessionData → SessionData) (σ : State) :
  (∀ d, direction (f d) = direction d ∧ ∃ new, images (f d) = images d ++ new) →
  grows σ (modify l f σ).
Proof.
  intros Hf l' d H. rewrite lookup_modify. case_decide.
  - rewrite H. exists (f d). split; [done|]. apply Hf.
  - by apply grows_refl.
Qed.

Lemma grows_set_processing (b : bool) (l : nat) (σ : State) :
  grows σ (modify l (set_processing b) σ).
Proof.
  apply grows_modify. intros d. split; [done|]. exists []. cbn.
  by rewrite app_nil_r.
Qed.

Lemma grows_finalize (u : string) (σ : State) :
  grows σ (stitchAndSendImages u σ).1.
Proof.
  destruct (finalize_cases u σ) as [->|(l & d & Hu & Hl & Hp & [Hlen|Hlen])].
  - apply grows_refl.
  - rewrite (finalize_too_few u σ l d) by done. apply grows_set_processing.
  - rewrite (finalize_render u σ l d) by done. apply grows_set_processing.
Qed.

Lemma grows_resume_fin (k : FinTask) (engine : nat → AttemptOutcome) (σ : State) :
  grows σ (resume_fin k engine σ).1.
Proof.
  destruct k as [u l|u imageUrls dir|u]; cbn [resume_fin].
  - apply grows_set_processing.
  - destruct (snd (stitchImages engine imageUrls dir)); by apply grows_same_heap.
  - by apply grows_same_heap.
Qed.

Lemma grows_startSession (u : string) (arg : option string) (σ : State) :
  grows σ (startSession u arg σ).1.
Proof.
  unfold startSession. cbv zeta.
  destruct (negb _ && negb _); [apply grows_refl|].
  intros l d H. exists d. cbn [fst heap upd_userImages upd_heap emit].
  split; [by apply lookup_app_l_Some|]. split; [done|].
  exists []. by rewrite app_nil_r.
Qed.

Section Growth.

Context (select_img_src : string → list string) (trim : string → string).

Lemma grows_middleware_rest (u content : string) (σ : State) :
  grows σ (middleware_rest trim u content σ).1.
Proof.
  unfold middleware_rest. destruct (String.eqb (trim content) done_keyword).
  - pose proof (grows_finalize u σ) as H.
    destruct (stitchAndSendImages u σ) as [σ' [k|]]; cbn [fst] in *; [done|].
    eapply grows_trans; [exact H|].
    apply grows_same_heap. by destruct (timeout σ' !! u).
  - apply grows_same_heap. by destruct (timeout σ !! u).
Qed.

Lemma grows_middleware (u content : string) (σ : State) :
  grows σ (middleware select_img_src trim u content σ).1.
Proof.
  unfold middleware. destruct (userImages σ !! u) as [l|];
    [|by apply grows_same_heap].
  assert (grows σ (modify l (push_images (select_img_src content)) σ)) as H.
  { apply grows_modify. intros d. split; [done|]. by eexists. }
  destruct (0 <? length (select_img_src content)).
  - exact H.
  - eapply grows_trans; [exact H|apply grows_middleware_rest].
Qed.

Lemma grows_step (m : Machine) (i : Input) :
  grows (st m) (st (step select_img_src trim m i)).
Proof.
  destruct i as [u arg|u content|t|i engine]; cbn [step].
  - pose proof (grows_startSession u arg (st m)) as H.
    by destruct (startSession u arg (st m)).
  - rewrite st_park. apply grows_middleware.
  - rewrite st_park. unfold fire.
    destruct (timers (st m) !! t) as [[u ms]|]; [|apply grows_refl].
    pose proof (grows_finalize u (upd_timers (delete t) (st m))) as H.
    by destruct (stitchAndSendImages u (upd_timers (delete t) (st m)))
      as [σ' [k|]].
  - destruct (pool m !! i) as [k|]; [|apply grows_refl].
    rewrite st_park. destruct k as [u content|u f|f]; cbn [resume].
    + apply grows_middleware_rest.
    + pose proof (grows_resume_fin f engine (st m)) as H.
      destruct (resume_fin f engine (st m)) as [σ' [k|]]; cbn [fst] in *;
        [done|].
      eapply grows_trans; [exact H|].
      apply grows_same_heap. by destruct (timeout σ' !! u).
    + pose proof (grows_resume_fin f engine (st m)) as H.
      by destruct (resume_fin f engine (st m)) as [σ' [k|]].
Qed.

Lemma reachable_run (m : Machine) (inputs : list Input) :
  reachable select_img_src trim m →
  reachable select_img_src trim (run select_img_src trim m inputs).
Proof.
  revert m. induction inputs as [|i inputs IH]; intros m Hm; [done|].
  apply IH. by constructor.
Qed.

(** Over any sequence of commands, messages, timers and settling promises,
    from any state, a session object is never removed from the heap, never
    changes its direction, and its image list only gets longer at the end:
    no image is dropped, replaced or reordered. *)
Theorem session_objects_only_grow (m : Machine) (inputs : list Input)
    (l : nat) (d : SessionData) :
  heap (st m) !! l = Some d →
  ∃ d', heap (st (run select_img_src trim m inputs)) !! l = Some d'
    ∧ direction d' = direction d
    ∧ ∃ new, images d' = images d ++ new.
Proof.
  revert m l d. induction inputs as [|i inputs IH]; intros m l d H.
  - by apply grows_refl.
  - destruct (grows_step m i l d H) as (d1 & H1 & E1 & new1 & I1).
    destruct (IH _ l d1 H1) as (d2 & H2 & E2 & new2 & I2).
    exists d2. split; [exact H2|]. split; [congruence|].
    exists (new1 ++ new2). by rewrite I2, I1, app_assoc.
Qed.

End Growth.

(** *** One user at a time *)


Section Isolation.

Context (select_img_src : string → list string) (trim : string → string).



End Isolation.

(** *** Messages *)

Section Messages.

Context (select_img_src : string → list string) (trim : string → string).

(** A message with images, for a user with a session, is answered with the
    number of images the session holds once the new ones are added, and
    waits for that answer to go out: until then no timer is touched and no
    finalize is started, even if the message is the keyword. *)
Theorem middleware_reports_running_total (u content : string) (σ : State)
    (l : nat) (d : SessionData) :
  userImages σ !! u = Some l → heap σ !! l = Some d →
  select_img_src content ≠ [] →
  ∃ σ',
    middleware select_img_src trim u content σ
    = (σ', Some (MwAwaitStatusSend u content))
    ∧ trace σ'
      = trace σ ++
        [Sent u (Text ("已获取 " +:+
                       show_nat (length (images d)
                                 + length (select_img_src content))
                       +:+ " 张图片。"))]
    ∧ heap σ' !! l = Some (push_images (select_img_src content) d)
    ∧ timers σ' = timers σ ∧ timeout σ' = timeout σ.
Proof.
  intros Hu Hl Hne. unfold middleware. rewrite Hu.
  assert ((0 <? length (select_img_src content)) = true) as ->.
  { apply Nat.ltb_lt. destruct (select_img_src content); [done|cbn; lia]. }
  assert (heap (modify l (push_images (select_img_src content)) σ) !! l
          = Some (push_images (select_img_src content) d)) as Hpush.
  { rewrite lookup_modify, decide_True by done. by rewrite Hl. }
  eexists. split; [reflexivity|].
  cbn [trace heap timers timeout emit]. rewrite Hpush.
  split; [|done]. cbn [from_option push_images images]. by rewrite length_app.
Qed.

(** A message that is not the keyword ends by cancelling the timer the
    table holds for the user and scheduling a new one of 10000 ms, which the
    table then holds; every other scheduled callback stays as it is, and no
    task is left behind. *)
Theorem message_resets_debounce_timer (u content : string) (σ : State) :
  trim content ≠ done_keyword →
  (∀ t, timeout σ !! u = Some t → t < next_timer σ) →
  let r := middleware_rest trim u content σ in
  r.2 = None
  ∧ timeout r.1 !! u = Some (next_timer σ)
  ∧ timers r.1 !! next_timer σ = Some (u, 10000%N)
  ∧ (∀ t, timeout σ !! u = Some t → timers r.1 !! t = None)
  ∧ (∀ t, t ≠ next_timer σ → timeout σ !! u ≠ Some t →
       timers r.1 !! t = timers σ !! t)
  ∧ trace r.1 = trace σ ∧ heap r.1 = heap σ ∧ userImages r.1 = userImages σ.
Proof.
  intros Hk Hlt. cbv zeta. unfold middleware_rest.
  apply String.eqb_neq in Hk. rewrite Hk.
  destruct (timeout σ !! u) as [t0|] eqn:Ht0;
    cbn [fst snd heap userImages trace timeout timers next_timer
         clearTimeout setTimeout upd_timeout upd_timers];
    rewrite !lookup_insert_eq; repeat split; try done.
  - intros t [= <-]. specialize (Hlt t0 eq_refl).
    rewrite lookup_insert_ne by lia. apply lookup_delete_eq.
  - intros t H1 H2. rewrite lookup_insert_ne by done.
    apply lookup_delete_ne. congruence.
  - intros t H1 H2. by rewrite lookup_insert_ne.
Qed.

(** The keyword on a session that, with the images of this message, holds
    fewer than two: the user is told that two are needed; when that answer
    has gone out the flag is reset, the session is kept with all its images,
    the timer the table holds is cancelled and none is scheduled, so nothing
    will finalize this session until another message arrives. *)
Theorem keyword_with_too_few_images (u content : string) (σ : State)
    (l : nat) (d : SessionData) :
  userImages σ !! u = Some l → heap σ !! l = Some d →
  processing d ≠ Some true → trim content = done_keyword →
  length (images d ++ select_img_src content) < 2 →
  ∃ σ1,
    deliver select_img_src trim u content σ
    = (σ1, Some (MwAwaitFinalize u (AwaitTooFewSend u l)))
    ∧ last (trace σ1) = Some (Sent u (Text too_few_reply))
    ∧ ∀ engine, ∃ σ2,
        resume trim (MwAwaitFinalize u (AwaitTooFewSend u l)) engine σ1
        = (σ2, None)
        ∧ userImages σ2 !! u = Some l
        ∧ heap σ2 !! l
          = Some (mkSession (direction d)
                    (images d ++ select_img_src content) (Some false))
        ∧ (∀ t, timeout σ !! u = Some t → timers σ2 !! t = None)
        ∧ next_timer σ2 = next_timer σ
        ∧ stitch_calls σ2 = stitch_calls σ.
Proof.
  intros Hu Hl Hp Hk Hlen.
  set (d' := push_images (select_img_src content) d).
  assert (∃ σ0, heap σ0 !! l = Some d' ∧ userImages σ0 = userImages σ
            ∧ timeout σ0 = timeout σ ∧ next_timer σ0 = next_timer σ
            ∧ stitch_calls σ0 = stitch_calls σ
            ∧ deliver select_img_src trim u content σ
              = middleware_rest trim u content σ0) as (σ0 & H0 & U0 & T0 & N0 & C0 & ->).
  { unfold deliver, middleware. rewrite Hu.
    assert (heap (modify l (push_images (select_img_src content)) σ) !! l = Some d')
      as Hpush.
    { rewrite lookup_modify, decide_True by done. by rewrite Hl. }
    apply String.eqb_eq in Hk.
    destruct (0 <? length (select_img_src content)).
    - match goal with |- context [middleware_rest trim u content ?s] =>
        exists s end.
      split; [exact Hpush|]. do 3 (split; [reflexivity|]).
      split; [|reflexivity].
      unfold stitch_calls. cbn [trace emit modify upd_heap].
      rewrite count_if_app. cbn. lia.
    - exists (modify l (push_images (select_img_src content)) σ).
      split; [exact Hpush|]. do 4 (split; [reflexivity|]).
      unfold middleware_rest. rewrite Hk.
      erewrite (finalize_too_few u _ l d') by done. done. }
  unfold middleware_rest. apply String.eqb_eq in Hk. rewrite Hk.
  rewrite (finalize_too_few u σ0 l d') by (by rewrite ?U0).
  eexists. split; [reflexivity|].
  split; [cbn [trace emit]; by rewrite last_snoc|].
  intros engine. cbn [resume resume_fin].
  eexists. split; [reflexivity|].
  cbn [timeout modify upd_heap emit]. rewrite T0.
  assert (heap (modify l (set_processing false)
                  (emit (Sent u (Text too_few_reply))
                     (modify l (set_processing true) σ0))) !! l
          = Some (mkSession (direction d)
                    (images d ++ select_img_src content) (Some false)))
    as Hheap.
  { rewrite lookup_modify, decide_True by done. cbn [heap emit].
    rewrite lookup_modify, decide_True by done. by rewrite H0. }
  destruct (timeout σ !! u) as [t0|];
    cbn [clearTimeout userImages heap timers next_timer upd_timers];
    (split; [by rewrite <- U0 in Hu|]);
    (split; [exact Hheap|]).
  - split; [intros t [= <-]; apply lookup_delete_eq|].
    split; [exact N0|].
    rewrite <- C0. unfold stitch_calls. cbn [trace emit modify upd_heap upd_timers].
    rewrite count_if_app. cbn. lia.
  - split; [done|]. split; [exact N0|].
    rewrite <- C0. unfold stitch_calls. cbn [trace emit modify upd_heap].
    rewrite count_if_app. cbn. lia.
Qed.

(** Once the [finally] block of a finalize has run, a message of that user
    is handed to [next()] and changes nothing, keyword or not, images or
    not. *)
Theorem message_after_cleanup_passes_on (u content : string) (σ : State)
    (engine : nat → AttemptOutcome) :
  let σ' := (resume_fin (AwaitResultSend u) engine σ).1 in
  middleware select_img_src trim u content σ' = (emit (Next u) σ', None).
Proof.
  cbv zeta. unfold middleware. cbn [resume_fin fst userImages upd_timeout upd_userImages].
  by rewrite lookup_delete_eq.
Qed.

End Messages.

(** No segment of [stitchAndSendImages] schedules or cancels a callback:
    from its first line to its [finally] block the callbacks the runtime has
    scheduled are the same, whatever the render does. *)
Theorem finalize_leaves_callbacks_alone (u : string) (σ : State) :
  timers (stitchAndSendImages u σ).1 = timers σ
  ∧ next_timer (stitchAndSendImages u σ).1 = next_timer σ
  ∧ ∀ k engine σ',
      timers (resume_fin k engine σ').1 = timers σ'
      ∧ next_timer (resume_fin k engine σ').1 = next_timer σ'.
Proof.
  split; [|split].
  - apply finalize_frame.
  - apply finalize_frame.
  - intros k engine σ'. destruct k as [u0 l|u0 imageUrls dir|u0];
      cbn [resume_fin]; [done| |done].
    by destruct (snd (stitchImages engine imageUrls dir)).
Qed.

(** ** The further properties on the example runs *)

Lemma demo_reachable (inputs : list Input) :
  reachable scan_img_src ascii_trim (run scan_img_src ascii_trim boot inputs).
Proof. apply reachable_run. constructor. Qed.

Lemma two_images_reachable : reachable scan_img_src ascii_trim two_images.
Proof. apply demo_reachable. Qed.


Lemma render_at_most_once_witness :
  renders 0 (st scenario_three_images) ≤ 1.
Proof.
  exact (render_at_most_once scan_img_src ascii_trim scenario_three_images 0
           (demo_reachable _)).
Defined.


Lemma store_well_formed_witness :
  is_Some (heap (st two_images) !! 0)
  ∧ ∀ u', userImages (st two_images) !! u' = Some 0 → u' = "alice".
Proof.
  apply (store_well_formed scan_img_src ascii_trim two_images "alice" 0
           two_images_reachable).
  vm_compute. reflexivity.
Defined.

Lemma startSession_invalid_witness :
  startSession "alice" (Some "斜向") (st one_image)
  = (st one_image, invalid_direction_reply).
Proof.
  apply startSession_invalid; cbn; discriminate.
Defined.

Lemma keyword_then_timer_renders_once_witness :
  stitch_calls (deliver scan_img_src ascii_trim "alice" "完成" (st two_images)).1
  = S (stitch_calls (st two_images))
  ∧ fire 0 (deliver scan_img_src ascii_trim "alice" "完成" (st two_images)).1
    = (upd_timers (delete 0)
         (deliver scan_img_src ascii_trim "alice" "完成" (st two_images)).1,
       None).
Proof.
  destruct (keyword_then_timer_renders_once scan_img_src ascii_trim
              "alice" "完成" 0 10000%N (st two_images) 0
              (mkSession "纵向" ["a.png"; "b.png"] None))
    as (H1 & _ & H2).
  - vm_compute. reflexivity.
  - vm_compute. reflexivity.
  - discriminate.
  - vm_compute. reflexivity.
  - vm_compute. lia.
  - vm_compute. reflexivity.
  - split; [exact H1|exact H2].
Defined.

Lemma stitch_never_called_short_witness :
  2 ≤ length ["1.png"; "2.png"; "3.png"] ∧ ("纵向" = "横向" ∨ "纵向" = "纵向").
Proof.
  apply (stitch_never_called_short scan_img_src ascii_trim
           scenario_three_images 0 ["1.png"; "2.png"; "3.png"] "纵向"
           (demo_reachable _)).
  apply list_elem_of_lookup. exists 4. vm_compute. reflexivity.
Defined.

Lemma sessions_have_valid_direction_witness :
  direction (mkSession "横向" ["a.png"] None) = "横向"
  ∨ direction (mkSession "横向" ["a.png"] None) = "纵向".
Proof.
  apply (sessions_have_valid_direction scan_img_src ascii_trim one_image 0 _
           (demo_reachable _)).
  vm_compute. reflexivity.
Defined.

Lemma timers_are_debounce_timers_witness :
  timers (st two_images) !! next_timer (st two_images) = None.
Proof.
  exact (proj2 (proj2 (timers_are_debounce_timers scan_img_src ascii_trim
                         two_images two_images_reachable))).
Defined.

Lemma session_objects_only_grow_witness :
  ∃ d', heap (st (run scan_img_src ascii_trim one_image
                    [Message "alice" (img "b.png"); Fire 0])) !! 0 = Some d'
    ∧ direction d' = "横向"
    ∧ ∃ new, images d' = ["a.png"] ++ new.
Proof.
  apply (session_objects_only_grow scan_img_src ascii_trim one_image
           [Message "alice" (img "b.png"); Fire 0] 0
           (mkSession "横向" ["a.png"] None)).
  vm_compute. reflexivity.
Defined.


Lemma middleware_reports_running_total_witness :
  ∃ σ',
    middleware scan_img_src ascii_trim "alice" (img "b.png") (st one_image)
    = (σ', Some (MwAwaitStatusSend "alice" (img "b.png")))
    ∧ trace σ' = trace (st one_image)
                 ++ [Sent "alice" (Text "已获取 2 张图片。")].
Proof.
  destruct (middleware_reports_running_total scan_img_src ascii_trim
              "alice" (img "b.png") (st one_image) 0
              (mkSession "横向" ["a.png"] None))
    as (σ' & H1 & H2 & _).
  - vm_compute. reflexivity.
  - vm_compute. reflexivity.
  - vm_compute. discriminate.
  - exists σ'. split; [exact H1|exact H2].
Defined.

Lemma message_resets_debounce_timer_witness :
  timers (middleware_rest ascii_trim "alice" "one more" (st one_image)).1 !! 0
  = None
  ∧ timers (middleware_rest ascii_trim "alice" "one more" (st one_image)).1 !! 1
    = Some ("alice", 10000%N).
Proof.
  destruct (message_resets_debounce_timer ascii_trim "alice" "one more"
              (st one_image))
    as (_ & _ & H1 & H2 & _).
  - vm_compute. discriminate.
  - intros t. vm_compute. intros [= <-]. lia.
  - split; [|exact H1]. apply H2. vm_compute. reflexivity.
Defined.

Lemma keyword_with_too_few_images_witness :
  ∃ σ1,
    deliver scan_img_src ascii_trim "alice" "完成" (st one_image)
    = (σ1, Some (MwAwaitFinalize "alice" (AwaitTooFewSend "alice" 0)))
    ∧ last (trace σ1) = Some (Sent "alice" (Text too_few_reply)).
Proof.
  destruct (keyword_with_too_few_images scan_img_src ascii_trim
              "alice" "完成" (st one_image) 0 (mkSession "横向" ["a.png"] None))
    as (σ1 & H1 & H2 & _).
  - vm_compute. reflexivity.
  - vm_compute. reflexivity.
  - discriminate.
  - vm_compute. reflexivity.
  - vm_compute. lia.
  - exists σ1. split; [exact H1|exact H2].
Defined.
